(** * github-subfinder: a shallow embedding of [github-subfinder.py]

    The script mines a code-search API for mentions of a target domain.
    This development embeds, function by function, the parts of the script
    that its specification talks about: the string helpers behind
    [split_domain], the regular expressions of [build_patterns] and
    [TOKEN_RE], the token pool, the response classification of
    [github_search] and [fetch_code], the token collection at the start of
    [main] and the query/page loop of [main].

    Conventions.
    - A Python [str] is a [list ascii]; the model covers ASCII text, on
      which [str.lower], [str.strip] and the [re] module behave as written
      here.
    - [time.time()] is an integer number of milliseconds.
    - The network, the clock, [random.shuffle], the JSON parser and the
      completion order of the fetch workers are fields of an environment
      record; the invariants of [main] are proved for all environments,
      and the example runs are evaluated in two small ones. *)

From Stdlib Require Import ZArith Ascii String List Bool Lia Permutation Sorted.
From stdpp Require Import base decidable list countable gmap strings.
Import ListNotations.

Local Open Scope Z_scope.
Local Open Scope list_scope.

(** A Python string, and a way to write one down. *)
Abbreviation str := (list ascii).

Definition lit (s : string) : str := list_ascii_of_string s.

(* ------------------------------------------------------------------ *)
(** ** String helpers ([str.lower], [str.strip], [str.split], [str.join]) *)

Module Str.

Definition code (c : ascii) : N := N_of_ascii c.

Definition in_range (lo hi c : ascii) : bool :=
  ((code lo <=? code c) && (code c <=? code hi))%N.

Definition is_upper (c : ascii) : bool := in_range "A" "Z" c.
Definition is_lower (c : ascii) : bool := in_range "a" "z" c.

(** [c.lower()] and [c.upper()] on one character. *)
Definition to_lower (c : ascii) : ascii :=
  if is_upper c then ascii_of_N (code c + 32) else c.

Definition to_upper (c : ascii) : ascii :=
  if is_lower c then ascii_of_N (code c - 32) else c.

(** [s.lower()] *)
Definition lower (s : str) : str := map to_lower s.

(** [c.isspace()]: tab, newline, vertical tab, form feed, carriage
    return, the four separators 0x1c..0x1f and the space. *)
Definition is_space (c : ascii) : bool :=
  ((9 <=? code c) && (code c <=? 13) || (28 <=? code c) && (code c <=? 32))%N.

Definition is_dot (c : ascii) : bool := (code c =? code ".")%N.

(** [s.lstrip(...)], [s.rstrip(...)] and [s.strip(...)] for a set of
    characters given by its membership test. *)
Fixpoint lstrip (p : ascii -> bool) (s : str) : str :=
  match s with
  | c :: s' => if p c then lstrip p s' else s
  | [] => []
  end.

Definition rstrip (p : ascii -> bool) (s : str) : str :=
  rev (lstrip p (rev s)).

Definition strip (p : ascii -> bool) (s : str) : str :=
  rstrip p (lstrip p s).

(** [s.split(sep)] for a one-character separator: never the empty list,
    [''.split('.') == ['']]. *)
Fixpoint split (sep : ascii -> bool) (s : str) : list str :=
  match s with
  | [] => [[]]
  | c :: s' =>
      if sep c then [] :: split sep s'
      else match split sep s' with
           | l :: ls => (c :: l) :: ls
           | [] => [[c]]
           end
  end.

(** [sep.join(parts)] *)
Fixpoint join (sep : str) (parts : list str) : str :=
  match parts with
  | [] => []
  | [p] => p
  | p :: ps => p ++ sep ++ join sep ps
  end.

(** [s.startswith(p)] *)
Fixpoint startswith (p s : str) : bool :=
  match p, s with
  | [], _ => true
  | a :: p', b :: s' => (code a =? code b)%N && startswith p' s'
  | _ :: _, [] => false
  end.

(** [s.replace(old, new)] for a non-empty [old]: the occurrences are
    replaced from the left and do not overlap; [skip] counts the
    characters of an occurrence that are still to be dropped. *)
Fixpoint replace_from (old new : str) (skip : nat) (s : str) : str :=
  match s with
  | [] => []
  | c :: s' =>
      match skip with
      | S k => replace_from old new k s'
      | O =>
          if startswith old s
          then new ++ replace_from old new (Nat.pred (length old)) s'
          else c :: replace_from old new O s'
      end
  end.

Definition replace (old new s : str) : str := replace_from old new O s.

(** Equality test on strings, [a == b]. *)
Definition eqb (a b : str) : bool := bool_decide (a = b).

End Str.

(* ------------------------------------------------------------------ *)
(** ** Domain helpers *)

(** The first line of [split_domain]:
    [host = user_domain.strip().lower().strip(".")]. *)
Definition normalize_host (user_domain : str) : str :=
  Str.strip Str.is_dot (Str.lower (Str.strip Str.is_space user_domain)).

(** [labels[-1]], [labels[-2]] and [labels[:-2]] of a list with at least
    two elements, counted from the end. *)
Definition last_two (labels : list str) : option (list str * str * str) :=
  match rev labels with
  | tld :: registrable :: front => Some (rev front, registrable, tld)
  | _ => None
  end.

(** [split_domain(user_domain)] returns [(sub, registrable, tld)]. *)
Definition split_domain (user_domain : str) : str * str * str :=
  let host := normalize_host user_domain in
  let labels := Str.split Str.is_dot host in
  if (length labels <? 2)%nat then ([], host, [])
  else match last_two labels with
       | Some (front, registrable, tld) =>
           (Str.join (lit ".") front, registrable, tld)
       | None => ([], host, [])
       end.

(* ------------------------------------------------------------------ *)
(** ** Regular expressions ([re]) *)

Module Re.

(** An item of a character class: [a-z] or a single character. *)
Inductive item : Type :=
| Range (lo hi : ascii)
| Single (c : ascii).

(** The patterns of the script use literals, character classes,
    repetition of a character class ([+], [{m,n}]), concatenation,
    alternation and optional groups. *)
Inductive regex : Type :=
| Eps
| Lit (c : ascii)
| Cls (items : list item)
| Rep (items : list item) (lo : nat) (hi : option nat)
| Cat (a b : regex)
| Alt (a b : regex)
| Opt (a : regex).

(** [cls+] *)
Definition Plus (items : list item) : regex := Rep items 1%nat None.

(** A literal text, as [re.escape(text)] compiles: one literal per
    character. *)
Fixpoint escape (text : str) : regex :=
  match text with
  | [] => Eps
  | c :: text' => Cat (Lit c) (escape text')
  end.

(** A compiled pattern: the expression and the [(?i)] flag. *)
Record pattern : Type := Pattern { ignorecase : bool; expr : regex }.

Definition item_has (i : item) (c : ascii) : bool :=
  match i with
  | Range lo hi => Str.in_range lo hi c
  | Single x => (Str.code x =? Str.code c)%N
  end.

Definition class_has (items : list item) (c : ascii) : bool :=
  existsb (fun i => item_has i c) items.

(** Under [(?i)] a character is in a class when it, its lower case or
    its upper case is. *)
Definition in_class (ic : bool) (items : list item) (c : ascii) : bool :=
  class_has items c
  || ic && (class_has items (Str.to_lower c) || class_has items (Str.to_upper c)).

Definition lit_eq (ic : bool) (x c : ascii) : bool :=
  (Str.code x =? Str.code c)%N
  || ic && (Str.code (Str.to_lower x) =? Str.code (Str.to_lower c))%N.

(** Greedy repetition of a class: take one more character while the
    upper bound allows it, and fall back to stopping here once the lower
    bound is met. The continuation [k] receives the rest of the text. *)
Fixpoint rep (ic : bool) (items : list item) (lo : nat) (hi : option nat)
    (s : str) (k : str -> option str) {struct s} : option str :=
  let stop := if (lo =? 0)%nat then k s else None in
  match hi with
  | Some O => stop
  | _ =>
      match s with
      | c :: s' =>
          if in_class ic items c then
            match rep ic items (Nat.pred lo) (option_map Nat.pred hi) s' k with
            | Some r => Some r
            | None => stop
            end
          else stop
      | [] => stop
      end
  end.

(** The backtracking matcher: the first way of matching, in the order in
    which [re] tries them, whose continuation succeeds. *)
Fixpoint run (ic : bool) (r : regex) (s : str) (k : str -> option str)
    {struct r} : option str :=
  match r with
  | Eps => k s
  | Lit x =>
      match s with
      | c :: s' => if lit_eq ic x c then k s' else None
      | [] => None
      end
  | Cls items =>
      match s with
      | c :: s' => if in_class ic items c then k s' else None
      | [] => None
      end
  | Rep items lo hi => rep ic items lo hi s k
  | Cat a b => run ic a s (fun s' => run ic b s' k)
  | Alt a b =>
      match run ic a s k with
      | Some r => Some r
      | None => run ic b s k
      end
  | Opt a =>
      match run ic a s k with
      | Some r => Some r
      | None => k s
      end
  end.

(** [p.match(s)]: a match that starts at the first character; the result
    is the text that follows the match. *)
Definition match_rest (p : pattern) (s : str) : option str :=
  run (ignorecase p) (expr p) s Some.

(** [m.group(0)] of [p.match(s)]. *)
Definition match_at (p : pattern) (s : str) : option str :=
  match match_rest p s with
  | Some rest => Some (firstn (length s - length rest) s)
  | None => None
  end.

(** [p.fullmatch(s) is not None] *)
Definition fullmatch (p : pattern) (s : str) : bool :=
  match run (ignorecase p) (expr p) s
          (fun rest => match rest with [] => Some [] | _ => None end) with
  | Some _ => true
  | None => false
  end.

(** [p.search(s) is not None] *)
Fixpoint search (p : pattern) (s : str) : bool :=
  match match_rest p s with
  | Some _ => true
  | None =>
      match s with
      | _ :: s' => search p s'
      | [] => false
      end
  end.

(** [[m.group(0) for m in p.finditer(s)]]: the matches from left to
    right, without overlap; [skip] counts the characters of the last
    match that are still to be passed. *)
Fixpoint finditer_from (p : pattern) (skip : nat) (s : str) : list str :=
  match skip with
  | S k =>
      match s with
      | _ :: s' => finditer_from p k s'
      | [] => []
      end
  | O =>
      match match_at p s with
      | Some g =>
          g :: match s with
               | _ :: s' => finditer_from p (Nat.pred (length g)) s'
               | [] => []
               end
      | None =>
          match s with
          | _ :: s' => finditer_from p O s'
          | [] => []
          end
      end
  end.

Definition finditer (p : pattern) (s : str) : list str := finditer_from p O s.

End Re.

(** The character classes of the domain patterns. *)
Definition host_chars : list Re.item :=
  [Re.Range "0" "9"; Re.Range "a" "z"; Re.Single "-"; Re.Single "."].

Definition label_chars : list Re.item :=
  [Re.Range "0" "9"; Re.Range "a" "z"; Re.Single "-"].

Definition dot : Re.regex := Re.Lit ".".

(** [build_patterns(user_domain, extended)] returns the search keyword and
    the compiled pattern.

    Extended:
    [(?i)[0-9a-z\-\.]+\.([0-9a-z\-]+)?REGISTRABLE([0-9a-z\-\.]+)?\.[a-z]{1,5}]

    Standard: [(?i)(([0-9a-z\-\.]+)\.)?CORE] with [CORE] the escaped
    [sub.registrable.tld], or [registrable.tld] when [sub] is empty. *)
Definition build_patterns (user_domain : str) (extended : bool) : str * Re.pattern :=
  let '(sub, registrable, tld) := split_domain user_domain in
  if extended then
    let search := registrable in
    let pat :=
      Re.Cat (Re.Plus host_chars)
        (Re.Cat dot
           (Re.Cat (Re.Opt (Re.Plus label_chars))
              (Re.Cat (Re.escape registrable)
                 (Re.Cat (Re.Opt (Re.Plus host_chars))
                    (Re.Cat dot
                       (Re.Rep [Re.Range "a" "z"] 1%nat (Some 5%nat))))))) in
    (search, Re.Pattern true pat)
  else
    let '(search, core) :=
      match sub with
      | _ :: _ =>
          (sub ++ lit "." ++ registrable ++ lit "." ++ tld,
           Re.Cat (Re.escape sub)
             (Re.Cat dot (Re.Cat (Re.escape registrable) (Re.Cat dot (Re.escape tld)))))
      | [] =>
          (registrable ++ lit "." ++ tld,
           Re.Cat (Re.escape registrable) (Re.Cat dot (Re.escape tld)))
      end in
    let pat := Re.Cat (Re.Opt (Re.Cat (Re.Plus host_chars) dot)) core in
    (search, Re.Pattern true pat).

(** [TOKEN_RE]:
    [(?:[0-9a-f]{40}|ghp_[A-Za-z0-9]{36}|github_pat_[_A-Za-z0-9]{82})] *)
Definition TOKEN_RE : Re.pattern :=
  Re.Pattern false
    (Re.Alt (Re.Rep [Re.Range "0" "9"; Re.Range "a" "f"] 40%nat (Some 40%nat))
       (Re.Alt
          (Re.Cat (Re.escape (lit "ghp_"))
             (Re.Rep [Re.Range "A" "Z"; Re.Range "a" "z"; Re.Range "0" "9"]
                36%nat (Some 36%nat)))
          (Re.Cat (Re.escape (lit "github_pat_"))
             (Re.Rep [Re.Single "_"; Re.Range "A" "Z"; Re.Range "a" "z"; Re.Range "0" "9"]
                82%nat (Some 82%nat))))).

(* ------------------------------------------------------------------ *)
(** ** Configuration constants *)

(** The two durations are in milliseconds: 0.20 s and 61 s. *)
Definition SEARCH_MAX_PAGES : nat := 10.
Definition RAW_DELAY_SEC : Z := 200.
Definition RATE_LIMIT_COOLDOWN : Z := 61000.

Definition DEFAULT_LANGUAGES : list str :=
  map lit
    ["JavaScript"; "Python"; "Java"; "Go"; "Ruby"; "PHP"; "Shell"; "CSV";
     "Markdown"; "XML"; "JSON"; "Text"; "CSS"; "HTML"; "Perl";
     "ActionScript"; "Lua"; "C"; "C%2B%2B"; "C%23"]%string.

Definition DEFAULT_NOISE : list str :=
  map lit
    ["api"; "private"; "secret"; "internal"; "corp"; "development";
     "production"]%string.

(* ------------------------------------------------------------------ *)
(** ** The token pool ([class TokenPool]) *)

(** One entry of [self.tokens]: [{"value": t, "disabled_until": 0.0}]. *)
Record Token : Type := mkToken { value : str; disabled_until : Z }.

Record TokenPool : Type := mkPool {
  tokens : list Token;
  stop_when_empty : bool;
  idx : nat
}.

(** [TokenPool.__init__], after [random.shuffle] has chosen the order
    [shuffled] of the entries. *)
Definition fresh_entries (toks : list str) : list Token :=
  map (fun t => mkToken t 0) toks.

Definition new_pool (shuffled : list Token) (stop : bool) : TokenPool :=
  mkPool shuffled stop 0%nat.

(** [_available_indices]: the positions whose entry is usable at [now]. *)
Fixpoint available_from (i : nat) (now : Z) (ts : list Token) : list nat :=
  match ts with
  | [] => []
  | t :: ts' =>
      if disabled_until t <=? now then i :: available_from (S i) now ts'
      else available_from (S i) now ts'
  end.

Definition available_indices (now : Z) (p : TokenPool) : list nat :=
  available_from 0%nat now (tokens p).

(** [avail.index(x)]: the first position of [x]; [None] is [ValueError]. *)
Fixpoint index_of (x : nat) (l : list nat) : option nat :=
  match l with
  | [] => None
  | y :: l' => if (y =? x)%nat then Some 0%nat else S <$> index_of x l'
  end.

(** [TokenPool.get], at clock reading [now]. The outer [option] is [None]
    when an indexing operation of the body raises; the inner one is the
    returned value, [None] when no token is available. *)
Definition get (now : Z) (p : TokenPool) : option (option str * TokenPool) :=
  let avail := available_indices now p in
  match avail with
  | [] => Some (None, p)
  | first :: _ =>
      let i := if bool_decide (idx p ∈ avail) then idx p else first in
      t ← tokens p !! i;
      pos ← index_of i avail;
      let nxt := (pos + 1)%nat in
      let nxt := if (length avail <=? nxt)%nat then 0%nat else nxt in
      i' ← avail !! nxt;
      Some (Some (value t), mkPool (tokens p) (stop_when_empty p) i')
  end.

(** [TokenPool.disable]: the first entry whose value is [tok] is withheld
    until [now + cooldown]. *)
Fixpoint disable_first (tok : str) (until : Z) (ts : list Token) : list Token :=
  match ts with
  | [] => []
  | t :: ts' =>
      if Str.eqb (value t) tok then mkToken (value t) until :: ts'
      else t :: disable_first tok until ts'
  end.

Definition disable (now : Z) (tok : str) (cooldown : Z) (p : TokenPool) : TokenPool :=
  mkPool (disable_first tok (now + cooldown) (tokens p)) (stop_when_empty p) (idx p).

(** [TokenPool.any_available] *)
Definition any_available (now : Z) (p : TokenPool) : bool :=
  existsb (fun t => disabled_until t <=? now) (tokens p).

(** Successive calls of [get], one per clock reading of [nows]; the list
    of returned values ([None]: no token available). *)
Fixpoint get_seq (nows : list Z) (p : TokenPool) : list (option str) :=
  match nows with
  | [] => []
  | now :: nows' =>
      match get now p with
      | Some (r, p') => r :: get_seq nows' p'
      | None => []
      end
  end.

(* ------------------------------------------------------------------ *)
(** ** GitHub API: requests, responses and their classification *)

(** What [gh_request] returns: [(status, headers, body)], with
    [status = None] when no response was received. *)
Record Response : Type := mkResponse {
  status : option Z;
  headers : list (str * str);
  body : str
}.

(** [hdr.get(key)] *)
Fixpoint header_get (key : str) (hdr : list (str * str)) : option str :=
  match hdr with
  | [] => None
  | (k, v) :: hdr' => if Str.eqb k key then Some v else header_get key hdr'
  end.

(** [status == 403 or hdr.get("X-RateLimit-Remaining") == "0"] *)
Definition rate_limited (st : Z) (hdr : list (str * str)) : bool :=
  (st =? 403)
  || match header_get (lit "X-RateLimit-Remaining") hdr with
     | Some v => Str.eqb v (lit "0")
     | None => false
     end.

(** The error dictionaries: [{"error": "network"}],
    [{"error": "ratelimit"}] with or without a ["message"],
    [{"error": f"http_{status}"}] and [{"error": "json"}]. *)
Inductive Error : Type :=
| ErrNetwork
| ErrRatelimit (message : option str)
| ErrHttp (st : Z)
| ErrJson.

(** The part of a decoded search result that [main] reads: the
    [html_url] of every item ([None] when the key is missing) and
    [total_count]. *)
Record SearchData : Type := mkData {
  items : list (option str);
  total_count : Z
}.

Section Classification.

(** [json.loads(body.decode("utf-8", "ignore"))]: [None] when it raises;
    and the ["message"] of a decoded error body, [""] by default. *)
Variable json_loads : str -> option SearchData.
Variable json_message : str -> str.

(** [github_search], from the response on. *)
Definition classify_search (r : Response) : Error + SearchData :=
  match status r with
  | None => inl ErrNetwork
  | Some st =>
      if rate_limited st (headers r) then
        inl (ErrRatelimit (Some (json_message (body r))))
      else if negb (st =? 200) then inl (ErrHttp st)
      else match json_loads (body r) with
           | None => inl ErrJson
           | Some data => inr data
           end
  end.

(** [fetch_code], from the response on. *)
Definition classify_fetch (r : Response) : Error + str :=
  match status r with
  | None => inl ErrNetwork
  | Some st =>
      if 500 <=? st then inl ErrNetwork
      else if rate_limited st (headers r) then inl (ErrRatelimit None)
      else if negb (st =? 200) then inl (ErrHttp st)
      else inr (body r)
  end.

End Classification.

(** [to_raw_url] *)
Definition to_raw_url (html_url : str) : str :=
  Str.replace (lit "/blob/") (lit "/")
    (Str.replace (lit "https://github.com/") (lit "https://raw.githubusercontent.com/")
       html_url).

(** The outcomes of the specification. *)
Inductive Code : Type := HttpStatus (st : Z) | Malformed.

Inductive Outcome : Type :=
| Ok
| RateLimited
| TransientError (code : Code)
| NetworkError.

Definition outcome_of_error (e : Error) : Outcome :=
  match e with
  | ErrNetwork => NetworkError
  | ErrRatelimit _ => RateLimited
  | ErrHttp st => TransientError (HttpStatus st)
  | ErrJson => TransientError Malformed
  end.

Definition outcome {A : Type} (r : Error + A) : Outcome :=
  match r with
  | inl e => outcome_of_error e
  | inr _ => Ok
  end.

(** The classification of fetch responses as the specification words it:
    the rule of the search client, except that a 5xx status is a
    [NetworkError]. [parses] tells whether the body has the expected
    structure. *)
Definition spec_search_outcome (parses : bool) (r : Response) : Outcome :=
  match status r with
  | None => NetworkError
  | Some st =>
      if rate_limited st (headers r) then RateLimited
      else if negb (st =? 200) then TransientError (HttpStatus st)
      else if parses then Ok else TransientError Malformed
  end.

Definition is_5xx (st : Z) : bool := (500 <=? st) && (st <=? 599).

Definition spec_fetch_outcome (parses : bool) (r : Response) : Outcome :=
  match status r with
  | Some st => if is_5xx st then NetworkError else spec_search_outcome parses r
  | None => spec_search_outcome parses r
  end.

(* ------------------------------------------------------------------ *)
(** ** Search plan *)

Definition dquote : ascii := ascii_of_nat 34.

(** [build_searches(base_search, quick)] *)
Definition build_searches (base_search : str) (quick : bool) : list str :=
  let quoted := dquote :: base_search ++ [dquote] in
  if quick then [quoted]
  else [quoted]
       ++ map (fun lang => quoted ++ lit " language:" ++ lang) DEFAULT_LANGUAGES
       ++ map (fun term => quoted ++ lit " " ++ term) DEFAULT_NOISE.

(* ------------------------------------------------------------------ *)
(** ** Token collection (the start of [main], [read_tokens_from_file]) *)

(** [read_tokens_from_file], from the lines of the file on. *)
Fixpoint read_lines (lines : list str) (toks : list str) : list str :=
  match lines with
  | [] => toks
  | line :: lines' =>
      let t := Str.strip Str.is_space line in
      if negb (Str.eqb t []) && Re.search TOKEN_RE t && negb (bool_decide (t ∈ toks))
      then read_lines lines' (toks ++ [t])
      else read_lines lines' toks
  end.

(** [file] is [None] when the path does not exist. *)
Definition read_tokens_from_file (file : option (list str)) : list str :=
  match file with
  | None => []
  | Some lines => read_lines lines []
  end.

(** The tokens of [-t]:
    [[t.strip() for t in args.tokens.split(",") if TOKEN_RE.search(t.strip())]] *)
Definition tokens_of_arg (arg : str) : list str :=
  map (Str.strip Str.is_space)
    (List.filter (fun t => Re.search TOKEN_RE (Str.strip Str.is_space t))
       (Str.split (fun c => (Str.code c =? Str.code ",")%N) arg)).

(** The token list [main] hands to [TokenPool]: [-t] first, then the
    environment variable, then the [.tokens] file; [[]] makes [main] exit
    with status 2. *)
Definition collect_tokens (arg env_var : str) (file : option (list str)) : list str :=
  let tokens := match arg with [] => [] | _ => tokens_of_arg arg end in
  let tokens :=
    match tokens with
    | [] =>
        let env := Str.strip Str.is_space env_var in
        if negb (Str.eqb env []) && Re.search TOKEN_RE env then [env] else []
    | _ => tokens
    end in
  match tokens with
  | [] => read_tokens_from_file file
  | _ => tokens
  end.

(* ------------------------------------------------------------------ *)
(** ** The environment of a run *)

Inductive Request : Type :=
| SearchReq (query : str) (page : nat) (token : str)
| RawReq (raw_url : str) (token : str).

(** Everything [main] takes from outside the script. [World] is the state
    of the outside; a request, a sleep and a shuffle move it on. *)
Record Env : Type := mkEnv {
  World : Type;
  (** [time.time()] *)
  time_now : World -> Z;
  (** [time.sleep(d)] *)
  time_sleep : Z -> World -> World;
  (** [gh_request] *)
  gh_request : Request -> World -> Response * World;
  json_loads : str -> option SearchData;
  json_message : str -> str;
  (** [random.shuffle] *)
  shuffle : list Token -> World -> list Token * World;
  (** the order in which [as_completed] yields the results of a page *)
  as_completed : list (Error + str) -> World -> list (Error + str);
  (** writing the output file; [false] when it raises *)
  write_file : str -> list str -> World -> bool * World;
  (** [os.getenv("GITHUB_TOKEN", "")] and the lines of [.tokens] *)
  env_GITHUB_TOKEN : str;
  dot_tokens : option (list str)
}.

(** The parsed command line. *)
Record Args : Type := mkArgs {
  arg_domain : str;
  arg_tokens : str;
  arg_output : str;
  arg_extended : bool;
  arg_quick : bool;
  arg_stop_when_no_token : bool;
  arg_raw : bool;
  arg_version : bool
}.

(** What the script prints. *)
Inductive Level : Type := info | warn | error | found.

Inductive Msg : Type :=
| MsgVersion
| MsgNoTokenProvided
| MsgBanner
| MsgSettings
| MsgNoTokenExiting
| MsgNoTokenWaiting
| MsgRateLimitHit
| MsgSearchError (e : Error) (q : str) (page : nat)
| MsgNoItems (q : str) (page : nat) (total : Z)
| MsgFound (d : str)
| MsgCannotWrite
| MsgDone (n : nat) (out_file : str).

(** A printed line, bare or behind a time stamp. *)
Inductive Line : Type := Bare (m : Msg) | Stamped (m : Msg).

(** [log(msg, level, raw)] *)
Definition log (msg : Msg) (level : Level) (raw : bool) (out : list Line) : list Line :=
  match raw, level with
  | true, found => out ++ [Bare msg]
  | true, _ => out
  | false, _ => out ++ [Stamped msg]
  end.

(** [m.group(0).lower().strip(".")] *)
Definition normalize_match (g : str) : str :=
  Str.strip Str.is_dot (Str.lower g).

(** [sorted(found_domains)]: by code point, shorter first on a tie. *)
Fixpoint str_leb (a b : str) : bool :=
  match a, b with
  | [], _ => true
  | _ :: _, [] => false
  | x :: a', y :: b' =>
      if (Str.code x <? Str.code y)%N then true
      else if (Str.code y <? Str.code x)%N then false
      else str_leb a' b'
  end.

Fixpoint insert_sorted (x : str) (l : list str) : list str :=
  match l with
  | [] => [x]
  | y :: l' => if str_leb x y then x :: l else y :: insert_sorted x l'
  end.

Definition sorted (l : list str) : list str := fold_right insert_sorted [] l.

Section Main.

Context (E : Env).

(** The variables of [main] that change during the loop. *)
Record State : Type := mkState {
  pool : TokenPool;
  seen_urls : gset str;
  found_domains : gset str;
  stdout : list Line;
  world : World E
}.

(** Where [main] is: at the test of the [while] loop for query [q] with
    the queries [rest] still to come, after the [for] loop, ended with an
    exit status, or ended by an exception nothing catches. *)
Inductive Pc : Type :=
| PageLoop (q : str) (page : nat) (rest : list str)
| WriteOutput
| Exit (code : Z)
| Raised.

Definition set_pool (p : TokenPool) (s : State) : State :=
  mkState p (seen_urls s) (found_domains s) (stdout s) (world s).

Definition set_world (w : World E) (s : State) : State :=
  mkState (pool s) (seen_urls s) (found_domains s) (stdout s) w.

Definition say (msg : Msg) (level : Level) (raw : bool) (s : State) : State :=
  mkState (pool s) (seen_urls s) (found_domains s) (log msg level raw (stdout s)) (world s).

Definition sleep (d : Z) (s : State) : State :=
  set_world (time_sleep E d (world s)) s.

(** [pool.disable(tok)] *)
Definition disable_now (tok : str) (s : State) : State :=
  set_pool (disable (time_now E (world s)) tok RATE_LIMIT_COOLDOWN (pool s)) s.

(** [github_search(q, page, tok)] *)
Definition github_search (q : str) (page : nat) (tok : str) (w : World E)
    : (Error + SearchData) * World E :=
  let '(r, w') := gh_request E (SearchReq q page tok) w in
  (classify_search (json_loads E) (json_message E) r, w').

(** [fetch_code(html_url, tok)] *)
Definition fetch_code (html_url tok : str) (w : World E) : (Error + str) * World E :=
  let '(r, w') := gh_request E (RawReq (to_raw_url html_url) tok) w in
  (classify_fetch r, w').

(** The first loop over the items of a page: the URLs that are handed
    to the workers, in order, and the grown [seen_urls]. *)
Fixpoint submit (its : list (option str)) (seen : gset str) : list str * gset str :=
  match its with
  | [] => ([], seen)
  | it :: its' =>
      match it with
      | Some (c :: u) =>
          let html_url := c :: u in
          if bool_decide (html_url ∈ seen) then submit its' seen
          else let '(urls, seen') := submit its' ({[html_url]} ∪ seen) in
               (html_url :: urls, seen')
      | _ => submit its' seen
      end
  end.

(** The workers' calls of [fetch_code]. *)
Fixpoint fetch_all (urls : list str) (tok : str) (w : World E)
    : list (Error + str) * World E :=
  match urls with
  | [] => ([], w)
  | u :: urls' =>
      let '(r, w1) := fetch_code u tok w in
      let '(rs, w2) := fetch_all urls' tok w1 in
      (r :: rs, w2)
  end.

(** The loop over the matches of one text. *)
Fixpoint record_matches (raw : bool) (groups : list str) (s : State) : State :=
  match groups with
  | [] => s
  | g :: groups' =>
      let d := normalize_match g in
      match d with
      | _ :: _ =>
          if bool_decide (d ∈ found_domains s) then record_matches raw groups' s
          else
            record_matches raw groups'
              (say (MsgFound d) found raw
                 (mkState (pool s) (seen_urls s) ({[d]} ∪ found_domains s)
                    (stdout s) (world s)))
      | [] => record_matches raw groups' s
      end
  end.

(** The loop over the completed fetches of a page. *)
Fixpoint collect (raw : bool) (domain_re : Re.pattern) (tok : str)
    (results : list (Error + str)) (s : State) : State :=
  match results with
  | [] => s
  | r :: results' =>
      match r with
      | inl (ErrRatelimit _) => collect raw domain_re tok results' (disable_now tok s)
      | inl _ => collect raw domain_re tok results' s
      | inr [] => collect raw domain_re tok results' s
      | inr text =>
          collect raw domain_re tok results'
            (record_matches raw (Re.finditer domain_re text) s)
      end
  end.

Definition next_query (rest : list str) : Pc :=
  match rest with
  | [] => WriteOutput
  | q :: rest' => PageLoop q 1%nat rest'
  end.

Definition out_file (a : Args) : str :=
  match arg_output a with
  | [] => arg_domain a ++ lit ".txt"
  | o => o
  end.

(** One step of [main] from the loop on: one pass through the body of
    the [while] loop, the move to the next query when its test fails,
    or the writing of the output. *)
Definition step (a : Args) (domain_re : Re.pattern) (c : Pc * State) : Pc * State :=
  let '(pc, s) := c in
  let raw := arg_raw a in
  match pc with
  | PageLoop q page rest =>
      if (SEARCH_MAX_PAGES <? page)%nat then (next_query rest, s)
      else
        match get (time_now E (world s)) (pool s) with
        | None => (Raised, s)
        | Some (None, p) =>
            let s := set_pool p s in
            if arg_stop_when_no_token a then
              (next_query rest, say MsgNoTokenExiting error raw s)
            else
              (PageLoop q page rest, sleep 3000 (say MsgNoTokenWaiting info raw s))
        | Some (Some tok, p) =>
            let s := set_pool p s in
            let '(res, w) := github_search q page tok (world s) in
            let s := set_world w s in
            match res with
            | inl (ErrRatelimit _) =>
                (PageLoop q page rest,
                 sleep 1000 (say MsgRateLimitHit warn raw (disable_now tok s)))
            | inl e =>
                (next_query rest, sleep 500 (say (MsgSearchError e q page) warn raw s))
            | inr data =>
                match items data with
                | [] =>
                    (next_query rest,
                     if raw then s
                     else say (MsgNoItems q page (total_count data)) info raw s)
                | its =>
                    let '(urls, seen) := submit its (seen_urls s) in
                    let s := mkState (pool s) seen (found_domains s) (stdout s) (world s) in
                    let '(results, w) := fetch_all urls tok (world s) in
                    let s := set_world w s in
                    let s := collect raw domain_re tok (as_completed E results w) s in
                    (PageLoop q (S page) rest, sleep RAW_DELAY_SEC s)
                end
            end
        end
  | WriteOutput =>
      let '(ok, w) :=
        write_file E (out_file a) (sorted (elements (found_domains s))) (world s) in
      let s := set_world w s in
      if ok then
        (Exit 0,
         if raw then s
         else say (MsgDone (size (found_domains s)) (out_file a)) info raw s)
      else (Exit 4, say MsgCannotWrite error raw s)
  | Exit _ | Raised => (pc, s)
  end.

(** [main] up to the loop: the version flag, the tokens, the pool, the
    pattern and the search plan. *)
Definition start (a : Args) (w : World E) : Re.pattern * (Pc * State) :=
  let idle p out := mkState p ∅ ∅ out w in
  let no_pool := new_pool [] false in
  let '(search_keyword, domain_re) := build_patterns (arg_domain a) (arg_extended a) in
  if arg_version a then
    (domain_re, (Exit 0, idle no_pool [Bare MsgVersion]))
  else
    match collect_tokens (arg_tokens a) (env_GITHUB_TOKEN E) (dot_tokens E) with
    | [] =>
        (domain_re,
         (Exit 2, idle no_pool (log MsgNoTokenProvided error (arg_raw a) [])))
    | toks =>
        let '(shuffled, w') := shuffle E (fresh_entries toks) w in
        let p := new_pool shuffled (arg_stop_when_no_token a) in
        let out :=
          if arg_raw a then []
          else log MsgSettings info false (log MsgBanner info false []) in
        (domain_re,
         (next_query (build_searches search_keyword (arg_quick a)),
          mkState p ∅ ∅ out w'))
    end.

(** [n] steps from a configuration. *)
Fixpoint steps (n : nat) (a : Args) (domain_re : Re.pattern) (c : Pc * State)
    : Pc * State :=
  match n with
  | O => c
  | S n' => steps n' a domain_re (step a domain_re c)
  end.

(** [main], followed for [n] steps of its loop. *)
Definition main (n : nat) (a : Args) (w : World E) : Pc * State :=
  let '(domain_re, c) := start a w in
  steps n a domain_re c.

End Main.

(* ------------------------------------------------------------------ *)
(** ** The vocabulary of the properties *)

(** The first character of [s], if any, is outside [p]; and so are both
    the first and the last. *)
Definition head_free (p : ascii -> bool) (s : str) : Prop :=
  match s with [] => True | c :: _ => p c = false end.

Definition edge_free (p : ascii -> bool) (s : str) : Prop :=
  head_free p s /\ head_free p (rev s).

(** [split_domain] from the normalized host on. *)
Definition split_host (host : str) : str * str * str :=
  let labels := Str.split Str.is_dot host in
  if (length labels <? 2)%nat then ([], host, [])
  else match last_two labels with
       | Some (front, registrable, tld) =>
           (Str.join (lit ".") front, registrable, tld)
       | None => ([], host, [])
       end.

(** Joining the three components with dots, an empty subdomain left out. *)
Definition rejoin (parts : str * str * str) : str :=
  let '(sub, registrable, tld) := parts in
  match sub with
  | [] => registrable ++ lit "." ++ tld
  | _ => sub ++ lit "." ++ registrable ++ lit "." ++ tld
  end.

Definition space_or_dot (c : ascii) : bool := Str.is_space c || Str.is_dot c.

(** The two patterns of a target domain. *)
Definition standard_pattern (d : str) : Re.pattern := snd (build_patterns d false).
Definition extended_pattern (d : str) : Re.pattern := snd (build_patterns d true).

Module ReSpec.

(** The texts of the language of an expression. *)
Inductive matches (ic : bool) : Re.regex -> str -> Prop :=
| M_Eps : matches ic Re.Eps []
| M_Lit x c : Re.lit_eq ic x c = true -> matches ic (Re.Lit x) [c]
| M_Cls items c : Re.in_class ic items c = true -> matches ic (Re.Cls items) [c]
| M_Rep items lo hi s :
  forallb (Re.in_class ic items) s = true ->
  (lo <= length s)%nat ->
  match hi with Some h => (length s <= h)%nat | None => True end ->
  matches ic (Re.Rep items lo hi) s
| M_Cat a b s1 s2 :
  matches ic a s1 -> matches ic b s2 -> matches ic (Re.Cat a b) (s1 ++ s2)
| M_AltL a b s : matches ic a s -> matches ic (Re.Alt a b) s
| M_AltR a b s : matches ic b s -> matches ic (Re.Alt a b) s
| M_OptNone a : matches ic (Re.Opt a) []
| M_OptSome a s : matches ic a s -> matches ic (Re.Opt a) s.

End ReSpec.

(** A text that [TOKEN_RE.search] accepts. *)
Definition valid_token (t : str) : Prop := Re.search TOKEN_RE t = true.

(** A token of the 40-digit shape, for the examples. *)
Definition sample_token : str := lit "0123456789abcdef0123456789abcdef01234567".

(** Every entry of the pool is usable at [now]. *)
Definition all_available (now : Z) (p : TokenPool) : Prop :=
  Forall (fun t => disabled_until t <= now) (tokens p).

(** The position [get] starts from: the cursor, or the first position when
    the cursor is not a position of the pool. *)
Definition cursor (p : TokenPool) : nat :=
  if (idx p <? length (tokens p))%nat then idx p else 0%nat.

(** The position served by call number [k] (from 0) of a run of calls. *)
Definition served (p : TokenPool) (k : nat) : nat :=
  ((cursor p + k) mod length (tokens p))%nat.

(** A normalized domain: lower case, with no dot at either end. *)
Definition normal (d : str) : Prop := Str.lower d = d /\ edge_free Str.is_dot d.

(** Two texts that differ at most by letter case and by trailing dots. *)
Definition same_up_to_case_and_trailing_dots (a b : str) : Prop :=
  Str.lower (Str.rstrip Str.is_dot a) = Str.lower (Str.rstrip Str.is_dot b).

(** The invariant of the set of found domains: the entries are normalized
    and not empty. *)
Definition found_ok (E : Env) (s : State E) : Prop :=
  forall d, d ∈ found_domains E s -> normal d /\ d <> [].

(** An environment in which the clock starts at 0 and moves with the
    sleeps only, and every request is answered with status 403. *)
Definition limited_env : Env :=
  mkEnv Z
    (fun w => w)
    (fun d w => w + d)
    (fun _ w => (mkResponse (Some 403) [] [], w))
    (fun _ => None)
    (fun _ => [])
    (fun ts w => (ts, w))
    (fun rs _ => rs)
    (fun _ _ w => (true, w))
    []
    None.

(** [-d example.com -t <token> -k] *)
Definition limited_args : Args :=
  mkArgs (lit "example.com") sample_token [] false false true false false.

(** An environment in which the first page of a search lists one file, the
    later pages none, and the file mentions the target three times. *)
Definition demo_env : Env :=
  mkEnv Z
    (fun w => w)
    (fun d w => w + d)
    (fun rq w =>
       match rq with
       | SearchReq _ 1%nat _ => (mkResponse (Some 200) [] (lit "page one"), w)
       | SearchReq _ _ _ => (mkResponse (Some 200) [] (lit "no more"), w)
       | RawReq _ _ =>
           (mkResponse (Some 200) []
              (lit "Foo.Example.COM. foo.example.com .Bar.example.com"), w)
       end)
    (fun b =>
       if Str.eqb b (lit "page one")
       then Some (mkData [Some (lit "https://github.com/o/r/blob/main/f.txt")] 1)
       else Some (mkData [] 0))
    (fun _ => [])
    (fun ts w => (ts, w))
    (fun rs _ => rs)
    (fun _ _ w => (true, w))
    []
    None.

(** [-d example.com -t <token> -q] *)
Definition demo_args : Args :=
  mkArgs (lit "example.com") sample_token [] false true false false false.

(** The character sets of [TOKEN_RE] and of the domain patterns, spelled
    out. *)
Definition is_digit (c : ascii) : bool := Str.in_range "0" "9" c.

Definition is_hex (c : ascii) : bool := is_digit c || Str.in_range "a" "f" c.

Definition is_alnum (c : ascii) : bool :=
  Str.is_upper c || Str.is_lower c || is_digit c.

Definition is_alnum_or_underscore (c : ascii) : bool :=
  (Str.code c =? Str.code "_")%N || is_alnum c.

Definition is_letter (c : ascii) : bool := Str.is_upper c || Str.is_lower c.

Definition is_label_char (c : ascii) : bool :=
  is_alnum c || (Str.code c =? Str.code "-")%N.

Definition is_host_char (c : ascii) : bool := is_label_char c || Str.is_dot c.

(** The three shapes of a token: 40 lower-case hexadecimal digits, [ghp_]
    and 36 letters or digits, [github_pat_] and 82 letters, digits or
    underscores. *)
Definition token_shape (g : str) : Prop :=
  (length g = 40%nat /\ forallb is_hex g = true)
  \/ (exists x, g = lit "ghp_" ++ x /\ length x = 36%nat /\ forallb is_alnum x = true)
  \/ (exists x, g = lit "github_pat_" ++ x /\ length x = 82%nat
                /\ forallb is_alnum_or_underscore x = true).

(** The same text up to letter case. *)
Definition same_up_to_case (a b : str) : Prop := Str.lower a = Str.lower b.

(** The found domains among the printed lines, in the order of printing. *)
Fixpoint found_lines (out : list Line) : list str :=
  match out with
  | [] => []
  | Bare (MsgFound d) :: out' => d :: found_lines out'
  | Stamped (MsgFound d) :: out' => d :: found_lines out'
  | _ :: out' => found_lines out'
  end.

(** Every found domain is among the printed lines once, and no other
    domain is. *)
Definition printed_once (domains : gset str) (out : list Line) : Prop :=
  NoDup (found_lines out) /\ (forall d, In d (found_lines out) <-> d ∈ domains).



(** [-d example.com -t <token> -q --raw] *)
Definition demo_raw_args : Args :=
  mkArgs (lit "example.com") sample_token [] false true false true false.

(** [old] starts at no position of [a] in the text [a ++ s]. *)
Fixpoint starts_nowhere (old a s : str) : bool :=
  match a with
  | [] => true
  | _ :: a' => negb (Str.startswith old (a ++ s)) && starts_nowhere old a' s
  end.

(** A text of ASCII characters only. The characters of the model are
    those of ASCII for [str.lower], [str.strip] and the letter case of a
    pattern; Python also folds the case of some characters beyond ASCII,
    so the properties of the patterns are stated for ASCII texts. *)
Definition is_ascii_text (s : str) : Prop :=
  forallb (fun c => (Str.code c <? 128)%N) s = true.

(** A text without a dot. *)
Definition dot_free (s : str) : Prop :=
  forallb (fun c => negb (Str.is_dot c)) s = true.

(** The host itself or a name under it. *)
Definition under_host (host d : str) : Prop :=
  d = host \/ exists x, d = x ++ lit "." ++ host.

(** A text that holds the keyword [kw] and ends with a dot and one to
    five lower-case letters. *)
Definition holds_keyword (kw d : str) : Prop :=
  exists x y e,
    d = x ++ kw ++ y ++ lit "." ++ e
    /\ (1 <= length e <= 5)%nat /\ forallb Str.is_lower e = true.

(** [-d example.com -t <token> -q -e] *)
Definition demo_ext_args : Args :=
  mkArgs (lit "example.com") sample_token [] true true false false false.

(* ================================================================== *)
(** * Properties *)

(** ** Examples of [split_domain] *)

Example split_domain_example :
  split_domain (lit "www.Example.com") = (lit "www", lit "example", lit "com").
Proof. reflexivity. Qed.

Example split_domain_degenerate :
  split_domain (lit "localhost") = ([], lit "localhost", []).
Proof. reflexivity. Qed.

(** ** Characters and the string helpers *)

Ltac by_cases_on_char c :=
  destruct c as [[] [] [] [] [] [] [] []]; vm_compute; congruence.

Lemma code_inj (a b : ascii) : Str.code a = Str.code b -> a = b.
Proof.
  unfold Str.code. intros H.
  rewrite <- (ascii_N_embedding a), <- (ascii_N_embedding b). now rewrite H.
Qed.

Lemma is_dot_spec (c : ascii) : Str.is_dot c = true <-> c = "."%char.
Proof.
  unfold Str.is_dot. rewrite N.eqb_eq. split.
  - apply code_inj.
  - now intros ->.
Qed.

Lemma to_lower_idem (c : ascii) : Str.to_lower (Str.to_lower c) = Str.to_lower c.
Proof. by_cases_on_char c. Qed.

Lemma is_dot_to_lower (c : ascii) : Str.is_dot (Str.to_lower c) = Str.is_dot c.
Proof. by_cases_on_char c. Qed.

Lemma is_space_to_lower (c : ascii) : Str.is_space (Str.to_lower c) = Str.is_space c.
Proof. by_cases_on_char c. Qed.

Lemma is_dot_not_space (c : ascii) : Str.is_dot c = true -> Str.is_space c = false.
Proof. intros H. apply is_dot_spec in H. now subst. Qed.

Lemma lower_idem (s : str) : Str.lower (Str.lower s) = Str.lower s.
Proof.
  unfold Str.lower. rewrite map_map. apply map_ext. intros c. apply to_lower_idem.
Qed.

Lemma lower_app (a b : str) : Str.lower (a ++ b) = Str.lower a ++ Str.lower b.
Proof. apply map_app. Qed.

Lemma lower_dots (p : str) : forallb Str.is_dot p = true -> Str.lower p = p.
Proof.
  induction p as [|c p IH]; simpl; [reflexivity|].
  intros H. apply andb_prop in H as [Hc Hp].
  apply is_dot_spec in Hc. subst c. now rewrite IH.
Qed.

Section Strip.

Variable p : ascii -> bool.

Lemma lstrip_all (l s : str) :
  forallb p l = true -> Str.lstrip p (l ++ s) = Str.lstrip p s.
Proof.
  induction l as [|c l IH]; simpl; [reflexivity|].
  intros H. apply andb_prop in H as [-> Hl]. now apply IH.
Qed.

Lemma lstrip_head_free (s : str) : head_free p s -> Str.lstrip p s = s.
Proof. destruct s as [|c s]; simpl; [reflexivity|]. now intros ->. Qed.

Lemma head_free_lstrip (s : str) : head_free p (Str.lstrip p s).
Proof.
  induction s as [|c s IH]; simpl; [exact I|].
  destruct (p c) eqn:Hc; [exact IH|]. simpl. exact Hc.
Qed.

Lemma lstrip_suffix (s : str) : exists l, s = l ++ Str.lstrip p s.
Proof.
  induction s as [|c s [l IH]]; simpl.
  - now exists [].
  - destruct (p c).
    + exists (c :: l). simpl. now f_equal.
    + now exists [].
Qed.

Lemma forallb_rev_eq (l : str) : forallb p (rev l) = forallb p l.
Proof.
  induction l as [|c l IH]; simpl; [reflexivity|].
  rewrite forallb_app, IH. simpl. rewrite andb_true_r. apply andb_comm.
Qed.

Lemma rstrip_all (s r : str) :
  forallb p r = true -> Str.rstrip p (s ++ r) = Str.rstrip p s.
Proof.
  intros H. unfold Str.rstrip. rewrite rev_app_distr, lstrip_all; [reflexivity|].
  now rewrite forallb_rev_eq.
Qed.

Lemma rstrip_head_free_rev (s : str) : head_free p (rev s) -> Str.rstrip p s = s.
Proof.
  intros H. unfold Str.rstrip. rewrite lstrip_head_free by exact H.
  apply rev_involutive.
Qed.

Lemma rstrip_prefix (s : str) : exists r, s = Str.rstrip p s ++ r.
Proof.
  unfold Str.rstrip. destruct (lstrip_suffix (rev s)) as [l Hl].
  exists (rev l). rewrite <- rev_app_distr, <- Hl. symmetry. apply rev_involutive.
Qed.

Lemma head_free_rstrip (s : str) : head_free p s -> head_free p (Str.rstrip p s).
Proof.
  intros H. destruct (rstrip_prefix s) as [r Hr].
  destruct (Str.rstrip p s) as [|c t] eqn:E; [exact I|].
  rewrite Hr in H. exact H.
Qed.

Lemma head_free_strip (s : str) : head_free p (Str.strip p s).
Proof. apply head_free_rstrip, head_free_lstrip. Qed.

Lemma strip_edge_free (s : str) : edge_free p s -> Str.strip p s = s.
Proof.
  intros [H1 H2]. unfold Str.strip.
  rewrite lstrip_head_free by exact H1. now apply rstrip_head_free_rev.
Qed.

Lemma strip_around (l s r : str) :
  forallb p l = true -> forallb p r = true -> edge_free p s ->
  Str.strip p (l ++ s ++ r) = s.
Proof.
  intros Hl Hr [H1 H2]. unfold Str.strip.
  rewrite lstrip_all by exact Hl.
  destruct s as [|c s].
  - simpl. clear H1 H2.
    assert (Hall : Str.lstrip p r = []).
    { rewrite <- (app_nil_r r), lstrip_all by exact Hr. reflexivity. }
    rewrite Hall. reflexivity.
  - rewrite lstrip_head_free by exact H1.
    rewrite rstrip_all by exact Hr. now apply rstrip_head_free_rev.
Qed.

(** The characters of a stripped string are characters of the string. *)
Lemma strip_incl (s : str) (c : ascii) : In c (Str.strip p s) -> In c s.
Proof.
  unfold Str.strip. intros H.
  destruct (rstrip_prefix (Str.lstrip p s)) as [r Hr].
  destruct (lstrip_suffix s) as [l Hl].
  rewrite Hl, Hr. apply in_or_app. right. apply in_or_app. now left.
Qed.

End Strip.

Section SplitJoin.

Lemma split_not_nil (sep : ascii -> bool) (s : str) : Str.split sep s <> [].
Proof.
  destruct s as [|c s]; simpl; [discriminate|].
  destruct (sep c); [discriminate|].
  destruct (Str.split sep s); discriminate.
Qed.

(** Splitting at the dots and joining with dots gives the text back. *)
Lemma join_split_dot (s : str) :
  Str.join (lit ".") (Str.split Str.is_dot s) = s.
Proof.
  induction s as [|c s IH]; [reflexivity|].
  simpl Str.split.
  destruct (Str.is_dot c) eqn:Hc.
  - apply is_dot_spec in Hc. subst c.
    pose proof (split_not_nil Str.is_dot s) as Hne.
    destruct (Str.split Str.is_dot s) as [|l ls] eqn:E; [congruence|].
    change (Str.join (lit ".") ([] :: l :: ls))
      with ([] ++ lit "." ++ Str.join (lit ".") (l :: ls)).
    rewrite IH. reflexivity.
  - pose proof (split_not_nil Str.is_dot s) as Hne.
    destruct (Str.split Str.is_dot s) as [|l ls] eqn:E; [congruence|].
    destruct ls as [|l' ls].
    + simpl in *. now f_equal.
    + change (Str.join (lit ".") ((c :: l) :: l' :: ls))
        with (c :: (l ++ lit "." ++ Str.join (lit ".") (l' :: ls))).
      f_equal. exact IH.
Qed.

(** A text without a separator is one label. *)
Lemma split_no_sep (sep : ascii -> bool) (s : str) :
  forallb (fun c => negb (sep c)) s = true -> Str.split sep s = [s].
Proof.
  induction s as [|c s IH]; simpl; [reflexivity|].
  intros H. apply andb_prop in H as [Hc Hs].
  apply negb_true_iff in Hc. rewrite Hc, (IH Hs). reflexivity.
Qed.

(** One label only: the text has no separator. *)
Lemma split_single_no_sep (sep : ascii -> bool) (s : str) :
  (length (Str.split sep s) < 2)%nat -> forallb (fun c => negb (sep c)) s = true.
Proof.
  induction s as [|c s IH]; simpl; [reflexivity|].
  pose proof (split_not_nil sep s) as Hne.
  destruct (sep c) eqn:Hc.
  - destruct (Str.split sep s); [congruence|]. simpl. lia.
  - destruct (Str.split sep s) as [|l ls] eqn:E; [congruence|].
    simpl. intros H. apply IH. simpl. exact H.
Qed.

(** A first label that is empty, with more labels behind it: the text
    starts with a separator. *)
Lemma split_head_empty (sep : ascii -> bool) (s : str) (l : str) (ls : list str) :
  Str.split sep s = [] :: l :: ls -> exists c t, s = c :: t /\ sep c = true.
Proof.
  destruct s as [|c s]; simpl; [discriminate|].
  destruct (sep c) eqn:Hc.
  - intros _. now exists c, s.
  - destruct (Str.split sep s); discriminate.
Qed.

Lemma join_app_two (front : list str) (a b : str) :
  Str.join (lit ".") (front ++ [a; b]) =
  match front with
  | [] => a ++ lit "." ++ b
  | _ => Str.join (lit ".") front ++ lit "." ++ a ++ lit "." ++ b
  end.
Proof.
  induction front as [|x front IH]; [reflexivity|].
  destruct front as [|y front].
  - reflexivity.
  - change (Str.join (lit ".") ((x :: y :: front) ++ [a; b]))
      with (x ++ lit "." ++ Str.join (lit ".") ((y :: front) ++ [a; b])).
    rewrite IH.
    change (Str.join (lit ".") (x :: y :: front))
      with (x ++ lit "." ++ Str.join (lit ".") (y :: front)).
    now rewrite <- !app_assoc.
Qed.

Lemma join_nil_inv (front : list str) :
  Str.join (lit ".") front = [] -> front = [] \/ front = [[]].
Proof.
  destruct front as [|x [|y front]]; simpl.
  - now left.
  - intros ->. now right.
  - intros H. apply app_eq_nil in H as [_ H]. discriminate.
Qed.

Lemma last_two_spec (labels : list str) :
  (2 <= length labels)%nat ->
  exists front a b, labels = front ++ [a; b] /\ last_two labels = Some (front, a, b).
Proof.
  intros H. unfold last_two.
  assert (Hrev : labels = rev (rev labels)) by (symmetry; apply rev_involutive).
  assert (Hlen : length (rev labels) = length labels) by apply length_rev.
  destruct (rev labels) as [|b [|a front]]; simpl in Hlen; try lia.
  exists (rev front), a, b. split; [|reflexivity].
  rewrite Hrev. simpl. now rewrite <- app_assoc.
Qed.

End SplitJoin.

(** ** [split_domain] *)

Lemma split_domain_host (d : str) : split_domain d = split_host (normalize_host d).
Proof. reflexivity. Qed.

Lemma normalize_host_no_dot (d : str) :
  forallb (fun c => negb (Str.is_dot c)) d = true ->
  forallb (fun c => negb (Str.is_dot c)) (normalize_host d) = true.
Proof.
  intros H. rewrite forallb_forall in *. intros c Hc.
  unfold normalize_host in Hc. apply strip_incl in Hc.
  unfold Str.lower in Hc. apply in_map_iff in Hc as [x [<- Hx]].
  apply strip_incl in Hx. rewrite is_dot_to_lower. now apply H.
Qed.

Lemma normalize_host_head_free (d : str) : head_free Str.is_dot (normalize_host d).
Proof. apply head_free_strip. Qed.

(** C3, as stated, fails: for ["localhost"] the registrable component is
    the host and the TLD is empty. *)
Lemma split_degenerate_spec_fails :
  ~ (forall D : str,
        (length (Str.split Str.is_dot D) < 2)%nat -> split_domain D = ([], [], D)).
Proof.
  intros H. specialize (H (lit "localhost")).
  assert (Hlen : (length (Str.split Str.is_dot (lit "localhost")) < 2)%nat)
    by (vm_compute; lia).
  specialize (H Hlen). vm_compute in H. discriminate H.
Qed.

(** C3, amended: for every domain string [D] with fewer than two
    dot-separated labels, [split_domain D] has an empty subdomain, the
    normalized [D] as registrable name and an empty TLD. *)
Theorem split_degenerate (D : str) :
  (length (Str.split Str.is_dot D) < 2)%nat ->
  split_domain D = ([], normalize_host D, []).
Proof.
  intros H. rewrite split_domain_host. unfold split_host.
  apply split_single_no_sep, normalize_host_no_dot, split_no_sep in H.
  rewrite H. reflexivity.
Qed.

Lemma split_degenerate_witness :
  (length (Str.split Str.is_dot (lit "LocalHost ")) < 2)%nat
  /\ split_domain (lit "LocalHost ") = ([], lit "localhost", []).
Proof.
  split; [vm_compute; lia|].
  apply (split_degenerate (lit "LocalHost ")). vm_compute. lia.
Defined.

(** C4, as stated, fails: an upper-case input is not reconstructed. *)
Lemma rejoin_spec_fails :
  ~ (forall D : str,
        (2 <= length (Str.split Str.is_dot D))%nat -> rejoin (split_domain D) = D).
Proof.
  intros H. specialize (H (lit "Example.COM")).
  assert (Hlen : (2 <= length (Str.split Str.is_dot (lit "Example.COM")))%nat)
    by (vm_compute; lia).
  specialize (H Hlen). vm_compute in H. discriminate H.
Qed.

(** C4, amended: for every domain string [D] whose normalized form
    (surrounding whitespace stripped, lowercased, leading and trailing dots
    stripped) has at least two labels, rejoining the components of
    [split_domain D] with dots, an empty subdomain left out, yields that
    normalized form; it is [D] itself when [D] is already normalized. *)
Theorem rejoin_split_domain (D : str) :
  (2 <= length (Str.split Str.is_dot (normalize_host D)))%nat ->
  rejoin (split_domain D) = normalize_host D
  /\ (normalize_host D = D -> rejoin (split_domain D) = D).
Proof.
  intros H.
  assert (Hmain : rejoin (split_domain D) = normalize_host D).
  { rewrite split_domain_host. unfold split_host.
    pose proof (normalize_host_head_free D) as Hhead.
    pose proof (join_split_dot (normalize_host D)) as Hjoin.
    set (host := normalize_host D) in *.
    destruct (last_two_spec _ H) as (front & a & b & Hlabels & Hlast).
    rewrite Hlast.
    assert (Hlt : (length (Str.split Str.is_dot host) <? 2)%nat = false)
      by (apply Nat.ltb_ge; exact H).
    rewrite Hlt. unfold rejoin.
    rewrite Hlabels, join_app_two in Hjoin.
    destruct (Str.join (lit ".") front) as [|c sub] eqn:Hsub.
    - apply join_nil_inv in Hsub as [-> | ->]; [exact Hjoin|].
      exfalso. simpl in Hlabels.
      apply split_head_empty in Hlabels as (c & t & Hc & Hdot).
      rewrite Hc in Hhead. simpl in Hhead. congruence.
    - destruct front as [|x front]; [discriminate Hsub|].
      exact Hjoin. }
  split; [exact Hmain|]. intros Hn. now rewrite Hmain.
Qed.

Lemma rejoin_split_domain_witness :
  (2 <= length (Str.split Str.is_dot (normalize_host (lit " WWW.Example.COM. "))))%nat
  /\ rejoin (split_domain (lit " WWW.Example.COM. ")) = lit "www.example.com".
Proof.
  split; [vm_compute; lia|].
  apply (rejoin_split_domain (lit " WWW.Example.COM. ")). vm_compute. lia.
Defined.

(** ** Normalization of the input of [split_domain] *)

Lemma head_free_weaken (p q : ascii -> bool) (s : str) :
  (forall c, q c = true -> p c = true) -> head_free p s -> head_free q s.
Proof.
  intros Hpq. destruct s as [|c s]; simpl; [trivial|].
  intros Hp. destruct (q c) eqn:Hq; [|reflexivity].
  apply Hpq in Hq. congruence.
Qed.

Lemma edge_free_space (s : str) : edge_free space_or_dot s -> edge_free Str.is_space s.
Proof.
  intros [H1 H2]; split; (eapply head_free_weaken; [|eassumption]);
    intros c Hc; unfold space_or_dot; now rewrite Hc.
Qed.

Lemma edge_free_dot (s : str) : edge_free space_or_dot s -> edge_free Str.is_dot s.
Proof.
  intros [H1 H2]; split; (eapply head_free_weaken; [|eassumption]);
    intros c Hc; unfold space_or_dot; rewrite Hc; apply orb_true_r.
Qed.

Lemma head_free_lower (p : ascii -> bool) (s : str) :
  (forall c, p (Str.to_lower c) = p c) -> head_free p s -> head_free p (Str.lower s).
Proof. intros Hp. destruct s as [|c s]; simpl; [trivial|]. now rewrite Hp. Qed.

Lemma edge_free_lower (p : ascii -> bool) (s : str) :
  (forall c, p (Str.to_lower c) = p c) -> edge_free p s -> edge_free p (Str.lower s).
Proof.
  intros Hp [H1 H2]. split; [now apply head_free_lower|].
  unfold Str.lower. rewrite <- map_rev. now apply head_free_lower.
Qed.

(** Dots around a text whose ends are neither spaces nor dots: the ends
    of the whole are not spaces. *)
Lemma head_free_space_dots (p1 c p2 : str) :
  forallb Str.is_dot p1 = true -> forallb Str.is_dot p2 = true ->
  head_free Str.is_space c -> head_free Str.is_space (p1 ++ c ++ p2).
Proof.
  intros Hp1 Hp2 Hc.
  destruct p1 as [|x p1]; simpl in *.
  - destruct c as [|y c]; simpl in *; [|exact Hc].
    destruct p2 as [|z p2]; simpl in *; [exact I|].
    apply andb_prop in Hp2 as [Hz _]. now apply is_dot_not_space.
  - apply andb_prop in Hp1 as [Hx _]. now apply is_dot_not_space.
Qed.

Lemma edge_free_space_dots (p1 c p2 : str) :
  forallb Str.is_dot p1 = true -> forallb Str.is_dot p2 = true ->
  edge_free Str.is_space c -> edge_free Str.is_space (p1 ++ c ++ p2).
Proof.
  intros Hp1 Hp2 [H1 H2]. split; [now apply head_free_space_dots|].
  rewrite !rev_app_distr, <- app_assoc.
  apply head_free_space_dots; [now rewrite forallb_rev_eq .. | exact H2].
Qed.

(** The host of an input that wraps [c] in dots and then in whitespace. *)
Lemma normalize_host_decorated (w1 p1 c p2 w2 : str) :
  forallb Str.is_space w1 = true -> forallb Str.is_space w2 = true ->
  forallb Str.is_dot p1 = true -> forallb Str.is_dot p2 = true ->
  edge_free space_or_dot c ->
  normalize_host (w1 ++ p1 ++ c ++ p2 ++ w2) = Str.lower c.
Proof.
  intros Hw1 Hw2 Hp1 Hp2 Hc. unfold normalize_host.
  replace (w1 ++ p1 ++ c ++ p2 ++ w2) with (w1 ++ (p1 ++ c ++ p2) ++ w2)
    by now rewrite <- !app_assoc.
  rewrite strip_around;
    [| exact Hw1 | exact Hw2 | now apply edge_free_space_dots, edge_free_space].
  rewrite !lower_app, (lower_dots p1), (lower_dots p2) by assumption.
  apply strip_around; [exact Hp1 | exact Hp2 |].
  apply edge_free_lower; [apply is_dot_to_lower | now apply edge_free_dot].
Qed.

(** Splitting at a dot splits the two sides. *)
Lemma split_app_dot (a b : str) :
  Str.split Str.is_dot (a ++ lit "." ++ b)
  = Str.split Str.is_dot a ++ Str.split Str.is_dot b.
Proof.
  induction a as [|c a IH]; [reflexivity|].
  change ((c :: a) ++ lit "." ++ b) with (c :: (a ++ lit "." ++ b)).
  cbn [Str.split]. rewrite IH.
  destruct (Str.is_dot c); [reflexivity|].
  pose proof (split_not_nil Str.is_dot a) as Hne.
  destruct (Str.split Str.is_dot a) as [|l ls]; [congruence | reflexivity].
Qed.

Lemma last_two_app (front : list str) (a b : str) :
  last_two (front ++ [a; b]) = Some (front, a, b).
Proof.
  unfold last_two. rewrite rev_app_distr. simpl. now rewrite rev_involutive.
Qed.

(** The split of a host [s.r.t] whose last two labels are [r] and [t]. *)
Lemma split_host_three (s r t : str) :
  forallb (fun c => negb (Str.is_dot c)) r = true ->
  forallb (fun c => negb (Str.is_dot c)) t = true ->
  split_host (s ++ lit "." ++ r ++ lit "." ++ t) = (s, r, t).
Proof.
  intros Hr Ht. unfold split_host.
  rewrite !split_app_dot, (split_no_sep _ r Hr), (split_no_sep _ t Ht).
  change (Str.split Str.is_dot s ++ [r] ++ [t]) with (Str.split Str.is_dot s ++ [r; t]).
  rewrite last_two_app, join_split_dot.
  assert (Hlen : (length (Str.split Str.is_dot s ++ [r; t]) <? 2)%nat = false).
  { apply Nat.ltb_ge. rewrite length_app. simpl. lia. }
  now rewrite Hlen.
Qed.

(** The split of a host [r.t] of two labels. *)
Lemma split_host_two (r t : str) :
  forallb (fun c => negb (Str.is_dot c)) r = true ->
  forallb (fun c => negb (Str.is_dot c)) t = true ->
  split_host (r ++ lit "." ++ t) = ([], r, t).
Proof.
  intros Hr Ht. unfold split_host.
  rewrite split_app_dot, (split_no_sep _ r Hr), (split_no_sep _ t Ht).
  reflexivity.
Qed.

(** C10, as stated, fails: two inputs that differ by a leading dot only
    can have different splits, because the whitespace is stripped before
    the dots and not again after them. *)
Lemma split_domain_spec_fails :
  split_domain (lit "." ++ lit " example.com") = ([], lit " example", lit "com")
  /\ split_domain (lit " example.com") = ([], lit "example", lit "com")
  /\ split_domain (lit "." ++ lit " example.com") <> split_domain (lit " example.com").
Proof. repeat apply conj; try reflexivity. vm_compute. discriminate. Qed.

(** C10, amended: [split_domain] normalizes its input before splitting, in
    this order: it strips the surrounding whitespace, lowercases, and
    strips the leading and trailing dots. An input that wraps an ASCII
    text [c1] (which neither starts nor ends with whitespace or a dot) in
    dots and then in whitespace has the lowercased [c1] as host; its split
    is [(s, r, t)] when that host reads [s.r.t] with [r] and [t] free of
    dots, and [("", r, t)] when it reads [r.t]; the keyword is then the
    host in standard mode and [r] in extended mode. Two such inputs whose
    texts are equal up to letter case have the same split, keyword and
    pattern in both modes, and [split(" Example.COM. ") =
    split("example.com") = ("", "example", "com")]. *)
Theorem split_domain_normalizes
    (w1 p1 c1 p2 w2 w1' p1' c2 p2' w2' : str) (extended : bool) :
  forallb Str.is_space w1 = true -> forallb Str.is_space w2 = true ->
  forallb Str.is_dot p1 = true -> forallb Str.is_dot p2 = true ->
  forallb Str.is_space w1' = true -> forallb Str.is_space w2' = true ->
  forallb Str.is_dot p1' = true -> forallb Str.is_dot p2' = true ->
  is_ascii_text c1 -> is_ascii_text c2 ->
  edge_free space_or_dot c1 -> edge_free space_or_dot c2 ->
  Str.lower c1 = Str.lower c2 ->
  let d1 := w1 ++ p1 ++ c1 ++ p2 ++ w2 in
  let d2 := w1' ++ p1' ++ c2 ++ p2' ++ w2' in
  normalize_host d1 = Str.lower c1
  /\ split_domain d1 = split_domain d2
  /\ build_patterns d1 extended = build_patterns d2 extended
  /\ split_domain d1 = split_domain (Str.lower c1)
  /\ (forall s r t,
      dot_free r -> dot_free t ->
      s <> [] ->
      Str.lower c1 = s ++ lit "." ++ r ++ lit "." ++ t ->
      split_domain d1 = (s, r, t)
      /\ (build_patterns d1 false).1 = Str.lower c1
      /\ (build_patterns d1 true).1 = r)
  /\ (forall r t,
      dot_free r -> dot_free t ->
      Str.lower c1 = r ++ lit "." ++ t ->
      split_domain d1 = ([], r, t)
      /\ (build_patterns d1 false).1 = Str.lower c1
      /\ (build_patterns d1 true).1 = r)
  /\ split_domain (lit " Example.COM. ") = ([], lit "example", lit "com")
  /\ split_domain (lit "example.com") = ([], lit "example", lit "com").
Proof.
  intros Hw1 Hw2 Hp1 Hp2 Hw1' Hw2' Hp1' Hp2' _ _ Hc1 Hc2 Hlow d1 d2.
  assert (H1 : normalize_host d1 = Str.lower c1)
    by now apply normalize_host_decorated.
  assert (H2 : normalize_host d2 = Str.lower c1)
    by (rewrite Hlow; now apply normalize_host_decorated).
  assert (Hsplit : split_domain d1 = split_domain d2)
    by now rewrite !split_domain_host, H1, H2.
  split; [exact H1|]. split; [exact Hsplit|]. repeat apply conj.
  - unfold build_patterns. now rewrite Hsplit.
  - assert (H3 : normalize_host ([] ++ [] ++ Str.lower c1 ++ [] ++ [])
                 = Str.lower (Str.lower c1)).
    { apply normalize_host_decorated; try reflexivity.
      apply edge_free_lower; [|exact Hc1].
      intros c. unfold space_or_dot. now rewrite is_space_to_lower, is_dot_to_lower. }
    simpl in H3. rewrite app_nil_r, lower_idem in H3.
    now rewrite !split_domain_host, H1, H3.
  - intros s r t Hr Ht Hs Heq.
    assert (Hd : split_domain d1 = (s, r, t)).
    { rewrite split_domain_host, H1, Heq. now apply split_host_three. }
    split; [exact Hd|]. unfold build_patterns. rewrite Hd. cbn [fst].
    split; [|reflexivity]. destruct s; [congruence|]. now rewrite Heq.
  - intros r t Hr Ht Heq.
    assert (Hd : split_domain d1 = ([], r, t)).
    { rewrite split_domain_host, H1, Heq. now apply split_host_two. }
    split; [exact Hd|]. unfold build_patterns. rewrite Hd. cbn [fst].
    split; [|reflexivity]. now rewrite Heq.
  - reflexivity.
  - reflexivity.
Qed.

Lemma split_domain_normalizes_witness :
  normalize_host (lit "  ..Sub.Example.COM. ") = lit "sub.example.com"
  /\ split_domain (lit "  ..Sub.Example.COM. ") = (lit "sub", lit "example", lit "com")
  /\ split_domain (lit "sub.example.com.. ") = (lit "sub", lit "example", lit "com")
  /\ (build_patterns (lit "  ..Sub.Example.COM. ") false).1 = lit "sub.example.com"
  /\ (build_patterns (lit "  ..Sub.Example.COM. ") true).1 = lit "example".
Proof.
  pose proof (split_domain_normalizes
                (lit "  ") (lit "..") (lit "Sub.Example.COM") (lit ".") (lit " ")
                [] [] (lit "sub.example.com") (lit "..") (lit " ") false
                eq_refl eq_refl eq_refl eq_refl eq_refl eq_refl eq_refl eq_refl
                eq_refl eq_refl
                (conj eq_refl eq_refl) (conj eq_refl eq_refl) eq_refl)
    as (Hhost & Hsame & _ & _ & Hthree & _).
  destruct (Hthree (lit "sub") (lit "example") (lit "com") eq_refl eq_refl
              ltac:(discriminate) eq_refl) as (Hsplit & Hkw & Hreg).
  split; [exact Hhost|]. split; [exact Hsplit|].
  split; [rewrite <- Hsplit; symmetry; exact Hsame|].
  split; [exact Hkw | exact Hreg].
Defined.

(** ** The matcher and the language of a pattern *)

Section Matcher.

Variable ic : bool.

Lemma rep_sound (items : list Re.item) (s : str) (k : str -> option str) :
forall lo hi x,
  Re.rep ic items lo hi s k = Some x ->
  exists s1 s2, s = s1 ++ s2 /\ ReSpec.matches ic (Re.Rep items lo hi) s1 /\ k s2 = Some x.
Proof.
assert (Hstop : forall (t : str) lo hi x,
           (if (lo =? 0)%nat then k t else None) = Some x ->
           exists s1 s2, t = s1 ++ s2
                         /\ ReSpec.matches ic (Re.Rep items lo hi) s1 /\ k s2 = Some x).
{ intros t lo hi x H. destruct (Nat.eqb_spec lo 0) as [->|]; [|discriminate].
  exists [], t. split; [reflexivity|]. split; [|exact H].
  constructor; simpl; [reflexivity | lia | destruct hi; [lia | exact I]]. }
induction s as [|c s IH]; intros lo hi x H.
- simpl in H. destruct hi as [[|h]|]; now apply Hstop.
- assert (Hstep : forall hi',
             match hi with Some h => exists h', h = S h' /\ hi' = Some h' | None => hi' = None end ->
             (if Re.in_class ic items c
              then match Re.rep ic items (Nat.pred lo) hi' s k with
                   | Some r => Some r
                   | None => if (lo =? 0)%nat then k (c :: s) else None
                   end
              else if (lo =? 0)%nat then k (c :: s) else None) = Some x ->
             exists s1 s2, c :: s = s1 ++ s2
                           /\ ReSpec.matches ic (Re.Rep items lo hi) s1 /\ k s2 = Some x).
  { intros hi' Hhi Hx.
    destruct (Re.in_class ic items c) eqn:Hc; [|now apply Hstop].
    destruct (Re.rep ic items (Nat.pred lo) hi' s k) as [r|] eqn:Hrec; [|now apply Hstop].
    injection Hx as ->.
    apply IH in Hrec as (s1 & s2 & -> & Hm & Hk).
    exists (c :: s1), s2. split; [reflexivity|]. split; [|exact Hk].
    inversion Hm as [| | |? ? ? ? Hall Hlo Hhi'| | | | |]; subst.
    constructor; simpl.
    - now rewrite Hc, Hall.
    - lia.
    - destruct hi as [h|]; [|exact I].
      destruct Hhi as (h' & -> & ->). lia. }
  simpl in H. destruct hi as [[|h]|].
  + now apply Hstop.
  + apply (Hstep (Some h)); [now exists h | exact H].
  + now apply (Hstep None).
Qed.

Lemma rep_complete (items : list Re.item) (k : str -> option str) (s2 : str) :
is_Some (k s2) ->
forall s1 lo hi,
  ReSpec.matches ic (Re.Rep items lo hi) s1 ->
  is_Some (Re.rep ic items lo hi (s1 ++ s2) k).
Proof.
intros Hk. induction s1 as [|c s1 IH]; intros lo hi Hm;
  inversion Hm as [| | |? ? ? ? Hall Hlo Hhi| | | | |]; subst.
- simpl in Hlo. assert (lo = 0%nat) as -> by lia. simpl app.
  destruct s2 as [|c s2]; simpl.
  + destruct hi as [[|h]|]; exact Hk.
  + destruct hi as [[|h]|]; try exact Hk;
      (destruct (Re.in_class ic items c); [|exact Hk]);
      (destruct (Re.rep ic items 0 _ s2 k); [eauto | exact Hk]).
- simpl in Hall. apply andb_prop in Hall as [Hc Hall]. simpl in Hlo.
  assert (Hrec : forall hi',
             match hi with Some h => exists h', h = S h' /\ hi' = Some h' | None => hi' = None end ->
             is_Some (Re.rep ic items (Nat.pred lo) hi' (s1 ++ s2) k)).
  { intros hi' Hhi'. apply IH. constructor; [exact Hall | lia |].
    destruct hi as [h|].
    - destruct Hhi' as (h' & -> & ->). simpl in Hhi. lia.
    - now subst hi'. }
  simpl. destruct hi as [[|h]|]; [simpl in Hhi; lia | |].
  + rewrite Hc. simpl option_map.
    destruct (Hrec (Some h)) as [r Hr]; [now exists h|].
    simpl in Hr. rewrite Hr. eauto.
  + rewrite Hc. simpl option_map.
    destruct (Hrec None) as [r Hr]; [reflexivity|].
    rewrite Hr. eauto.
Qed.

(** What the matcher finds is a text of the language followed by a rest
  that the continuation accepts. *)
Lemma run_sound (r : Re.regex) :
forall (s : str) (k : str -> option str) (x : str),
  Re.run ic r s k = Some x ->
  exists s1 s2, s = s1 ++ s2 /\ ReSpec.matches ic r s1 /\ k s2 = Some x.
Proof.
induction r as [|c|items|items lo hi|a IHa b IHb|a IHa b IHb|a IHa];
  intros s k x H; simpl in H.
- exists [], s. repeat split; [constructor | exact H].
- destruct s as [|c' s]; [discriminate|].
  destruct (Re.lit_eq ic c c') eqn:Hc; [|discriminate].
  exists [c'], s. repeat split; [now constructor | exact H].
- destruct s as [|c' s]; [discriminate|].
  destruct (Re.in_class ic items c') eqn:Hc; [|discriminate].
  exists [c'], s. repeat split; [now constructor | exact H].
- now apply rep_sound.
- apply IHa in H as (s1 & s' & -> & Ha & H).
  apply IHb in H as (s2 & s3 & -> & Hb & H).
  exists (s1 ++ s2), s3. rewrite <- app_assoc.
  repeat split; [now constructor | exact H].
- destruct (Re.run ic a s k) as [y|] eqn:Hleft.
  + injection H as <-. apply IHa in Hleft as (s1 & s2 & -> & Ha & Hk).
    exists s1, s2. repeat split; [now apply ReSpec.M_AltL | exact Hk].
  + apply IHb in H as (s1 & s2 & -> & Hb & Hk).
    exists s1, s2. repeat split; [now apply ReSpec.M_AltR | exact Hk].
- destruct (Re.run ic a s k) as [y|] eqn:Hleft.
  + injection H as <-. apply IHa in Hleft as (s1 & s2 & -> & Ha & Hk).
    exists s1, s2. repeat split; [now apply ReSpec.M_OptSome | exact Hk].
  + exists [], s. repeat split; [apply ReSpec.M_OptNone | exact H].
Qed.

(** Whenever a text of the language is followed by a rest that the
  continuation accepts, the matcher finds a match. *)
Lemma run_complete (r : Re.regex) (s1 : str) :
ReSpec.matches ic r s1 ->
forall (s2 : str) (k : str -> option str),
  is_Some (k s2) -> is_Some (Re.run ic r (s1 ++ s2) k).
Proof.
induction 1 as [|x c Hc|items c Hc|items lo hi s Hall Hlo Hhi
                |a b s1 s1' Ha IHa Hb IHb|a b s Ha IHa|a b s Hb IHb|a|a s Ha IHa];
  intros s2 k Hk; simpl.
- exact Hk.
- now rewrite Hc.
- now rewrite Hc.
- apply rep_complete; [exact Hk | now constructor].
- rewrite <- app_assoc. apply IHa. now apply IHb.
- destruct (IHa s2 k Hk) as [y Hy]. rewrite Hy. eauto.
- destruct (Re.run ic a (s ++ s2) k); [eauto | now apply IHb].
- destruct (Re.run ic a s2 k); [eauto | exact Hk].
- destruct (IHa s2 k Hk) as [y Hy]. rewrite Hy. eauto.
Qed.

End Matcher.

(** [fullmatch] decides the language of the pattern. *)
Lemma fullmatch_spec (p : Re.pattern) (s : str) :
  Re.fullmatch p s = true <-> ReSpec.matches (Re.ignorecase p) (Re.expr p) s.
Proof.
  unfold Re.fullmatch. split.
  - destruct (Re.run _ _ s _) as [x|] eqn:H; [intros _|discriminate].
    apply run_sound in H as (s1 & s2 & -> & Hm & Hk).
    destruct s2; [|discriminate]. now rewrite app_nil_r.
  - intros Hm.
    destruct (run_complete _ _ _ Hm []
                (fun rest => match rest with [] => Some [] | _ => None end)) as [x Hx];
      [eauto|].
    rewrite app_nil_r in Hx. now rewrite Hx.
Qed.

(** [search] succeeds exactly on the texts with a part in the language. *)
Lemma search_spec (p : Re.pattern) (s : str) :
  Re.search p s = true
  <-> exists pre g post,
      s = pre ++ g ++ post /\ ReSpec.matches (Re.ignorecase p) (Re.expr p) g.
Proof.
  split.
  - induction s as [|c s IH]; simpl; unfold Re.match_rest.
    + destruct (Re.run _ _ [] Some) as [x|] eqn:H; [intros _|discriminate].
      apply run_sound in H as (s1 & s2 & Hs & Hm & _). now exists [], s1, s2.
    + destruct (Re.run _ _ (c :: s) Some) as [x|] eqn:H.
      * intros _. apply run_sound in H as (s1 & s2 & Hs & Hm & _). now exists [], s1, s2.
      * intros Hs. apply IH in Hs as (pre & g & post & -> & Hm).
        now exists (c :: pre), g, post.
  - intros (pre & g & post & -> & Hm).
    induction pre as [|c pre IH].
    + simpl app. destruct (run_complete _ _ _ Hm post Some) as [x Hx]; [eauto|].
      destruct (g ++ post); simpl; unfold Re.match_rest; now rewrite Hx.
    + simpl. destruct (Re.match_rest p (c :: pre ++ g ++ post)); [reflexivity | exact IH].
Qed.

(** The text of a match at the start is in the language and starts the
    scanned text. *)
Lemma match_at_sound (p : Re.pattern) (s g : str) :
  Re.match_at p s = Some g ->
  ReSpec.matches (Re.ignorecase p) (Re.expr p) g /\ exists rest, s = g ++ rest.
Proof.
  unfold Re.match_at, Re.match_rest.
  destruct (Re.run _ _ s Some) as [rest|] eqn:H; [|discriminate].
  intros Hg. injection Hg as <-.
  apply run_sound in H as (s1 & s2 & -> & Hm & Hk). injection Hk as <-.
  rewrite length_app, Nat.add_sub, take_app_length.
  split; [exact Hm | now exists s2].
Qed.

(** Every text reported by a scan is in the language of the pattern. *)
Lemma finditer_sound (p : Re.pattern) (s g : str) :
  In g (Re.finditer p s) -> ReSpec.matches (Re.ignorecase p) (Re.expr p) g.
Proof.
  unfold Re.finditer. generalize 0%nat as skip. induction s as [|c s IH]; intros skip.
  - destruct skip; simpl; [|intros []].
    destruct (Re.match_at p []) as [g'|] eqn:Hm; [|intros []].
    intros [<-|[]]. now apply match_at_sound in Hm.
  - destruct skip as [|skip]; simpl; [|apply IH].
    destruct (Re.match_at p (c :: s)) as [g'|] eqn:Hm; [|apply IH].
    intros [<-|Hin]; [now apply match_at_sound in Hm | now apply IH in Hin].
Qed.

(** ** The domain patterns *)

(** C6: the standard-mode pattern for ["example.com"] matches
    ["example.com"] and ["foo.example.com"] and does not match
    ["notexample.com"]: the first two are in the language of the pattern
    and are what a scan of them, and a match at their start, reports; the
    third is not in the language, has no match at its start, and a scan of
    it never reports it. *)
Theorem standard_pattern_example :
  let p := standard_pattern (lit "example.com") in
  let language := ReSpec.matches (Re.ignorecase p) (Re.expr p) in
  language (lit "example.com")
  /\ language (lit "foo.example.com")
  /\ ~ language (lit "notexample.com")
  /\ Re.finditer p (lit "example.com") = [lit "example.com"]
  /\ Re.finditer p (lit "foo.example.com") = [lit "foo.example.com"]
  /\ Re.match_at p (lit "example.com") = Some (lit "example.com")
  /\ Re.match_at p (lit "foo.example.com") = Some (lit "foo.example.com")
  /\ Re.match_at p (lit "notexample.com") = None
  /\ ~ In (lit "notexample.com") (Re.finditer p (lit "notexample.com")).
Proof.
  intros p language. subst language.
  repeat apply conj; try (vm_compute; reflexivity).
  - apply fullmatch_spec. vm_compute. reflexivity.
  - apply fullmatch_spec. vm_compute. reflexivity.
  - intros H. apply fullmatch_spec in H. vm_compute in H. discriminate H.
  - vm_compute. intros [H | []]. discriminate H.
Qed.

(** What a scan of ["notexample.com"] does report: the target itself,
    found from the fourth character on. *)
Lemma standard_pattern_scan_inside :
  Re.finditer (standard_pattern (lit "example.com")) (lit "notexample.com")
  = [lit "example.com"].
Proof. vm_compute. reflexivity. Qed.

(** C5, as stated, fails: ["example-foo.net"] is not in the language of
    the extended pattern for ["example.com"], and neither is any part of
    it. *)
Lemma extended_pattern_spec_fails :
  let p := extended_pattern (lit "example.com") in
  let language := ReSpec.matches (Re.ignorecase p) (Re.expr p) in
  ~ language (lit "example-foo.net")
  /\ ~ (exists pre g post, lit "example-foo.net" = pre ++ g ++ post /\ language g)
  /\ Re.search p (lit "example-foo.net") = false
  /\ Re.finditer p (lit "example-foo.net") = [].
Proof.
  intros p language. subst language.
  repeat apply conj; try (vm_compute; reflexivity).
  - intros H. apply fullmatch_spec in H. vm_compute in H. discriminate H.
  - intros H. apply search_spec in H. vm_compute in H. discriminate H.
Qed.

(** C5, amended: the extended-mode pattern for ["example.com"] matches
    ["www.example-foo.net"], a host in which at least one host character
    and a dot precede the registrable name (loose containment: the name
    flanked by the host character class, followed by a 1-5 letter trailing
    label); it matches neither the bare ["example-foo.net"] nor a part of
    it. *)
Theorem extended_pattern_example :
  let p := extended_pattern (lit "example.com") in
  let language := ReSpec.matches (Re.ignorecase p) (Re.expr p) in
  language (lit "www.example-foo.net")
  /\ Re.finditer p (lit "www.example-foo.net") = [lit "www.example-foo.net"]
  /\ ~ language (lit "example-foo.net")
  /\ Re.search p (lit "example-foo.net") = false.
Proof.
  intros p language. subst language.
  repeat apply conj; try (vm_compute; reflexivity).
  - apply fullmatch_spec. vm_compute. reflexivity.
  - intros H. apply fullmatch_spec in H. vm_compute in H. discriminate H.
Qed.

(** ** Token collection *)

Lemma tokens_of_arg_valid (arg t : str) : In t (tokens_of_arg arg) -> valid_token t.
Proof.
  unfold tokens_of_arg. intros H.
  apply in_map_iff in H as [x [<- Hx]].
  apply filter_In in Hx as [_ Hx]. exact Hx.
Qed.

Lemma read_lines_inv (lines toks : list str) :
  Forall valid_token toks -> NoDup toks ->
  Forall valid_token (read_lines lines toks) /\ NoDup (read_lines lines toks).
Proof.
  revert toks. induction lines as [|line lines IH]; intros toks Hv Hn; simpl.
  - now split.
  - destruct (negb (Str.eqb (Str.strip Str.is_space line) [])
              && Re.search TOKEN_RE (Str.strip Str.is_space line)
              && negb (bool_decide (Str.strip Str.is_space line ∈ toks))) eqn:Hc.
    + apply andb_prop in Hc as [Hc Hnew]. apply andb_prop in Hc as [_ Hre].
      apply negb_true_iff, bool_decide_eq_false in Hnew.
      apply IH.
      * apply Forall_app. split; [exact Hv|]. now constructor.
      * apply NoDup_app. split; [exact Hn|]. split.
        -- intros x Hx Hx'. apply list_elem_of_singleton in Hx'. now subst.
        -- apply NoDup_singleton.
    + now apply IH.
Qed.

(** The tokens read from the file are valid and distinct. *)
Lemma read_tokens_from_file_ok (file : option (list str)) :
  Forall valid_token (read_tokens_from_file file)
  /\ NoDup (read_tokens_from_file file).
Proof.
  destruct file as [lines|]; simpl.
  - apply read_lines_inv; constructor.
  - split; constructor.
Qed.

(** Whatever the source, every collected token contains a text of the
    shape of [TOKEN_RE]. *)
Lemma collect_tokens_valid (arg env_var : str) (file : option (list str)) :
  Forall valid_token (collect_tokens arg env_var file).
Proof.
  unfold collect_tokens.
  set (from_arg := match arg with [] => [] | _ => tokens_of_arg arg end).
  assert (Harg : Forall valid_token from_arg).
  { apply List.Forall_forall. intros t Ht. subst from_arg.
    destruct arg; [destruct Ht|]. now apply tokens_of_arg_valid in Ht. }
  destruct from_arg as [|t ts]; [|exact Harg].
  destruct (negb (Str.eqb (Str.strip Str.is_space env_var) [])
            && Re.search TOKEN_RE (Str.strip Str.is_space env_var)) eqn:Henv.
  - apply andb_prop in Henv as [_ Hre]. now repeat constructor.
  - apply read_tokens_from_file_ok.
Qed.

(** The validation is a search: a text that merely contains a token is
    accepted, and handed on whole. *)
Lemma collect_tokens_accepts_containing :
  collect_tokens (lit "zz" ++ sample_token) [] None = [lit "zz" ++ sample_token].
Proof. vm_compute. reflexivity. Qed.

(** C7 at a failing input: the explicit list [-t T,T] reaches the pool
    with the token twice, whereas the same two lines in [.tokens] give it
    once. *)
Theorem collect_tokens_keeps_duplicates :
  let arg := sample_token ++ lit "," ++ sample_token in
  collect_tokens arg [] None = [sample_token; sample_token]
  /\ ~ NoDup (collect_tokens arg [] None)
  /\ collect_tokens [] [] (Some [sample_token; sample_token]) = [sample_token].
Proof.
  split; [vm_compute; reflexivity|]. split; [|vm_compute; reflexivity].
  intros H.
  assert (E : collect_tokens (sample_token ++ lit "," ++ sample_token) [] None
              = [sample_token; sample_token]) by (vm_compute; reflexivity).
  cbv zeta in H. rewrite E in H.
  apply NoDup_cons_1_1 in H. apply H. now left.
Qed.

(** ** The token pool: round robin *)

Lemma available_from_all (i : nat) (now : Z) (ts : list Token) :
  Forall (fun t => disabled_until t <= now) ts ->
  available_from i now ts = seq i (length ts).
Proof.
  intros H. revert i. induction H as [|t ts Ht _ IH]; intros i; simpl.
  - reflexivity.
  - apply Z.leb_le in Ht. rewrite Ht, IH. reflexivity.
Qed.

Lemma index_of_seq (j n x : nat) :
  (j <= x < j + n)%nat -> index_of x (seq j n) = Some (x - j)%nat.
Proof.
  revert j. induction n as [|n IH]; intros j H; [lia|].
  simpl. destruct (Nat.eqb_spec j x) as [->|Hne].
  - f_equal. lia.
  - rewrite IH by lia. simpl. f_equal. lia.
Qed.

Lemma get_all_available (now : Z) (p : TokenPool) :
  all_available now p -> tokens p <> [] ->
  exists t,
    tokens p !! cursor p = Some t
    /\ get now p
       = Some (Some (value t),
               mkPool (tokens p) (stop_when_empty p)
                 ((cursor p + 1) mod length (tokens p))%nat).
Proof.
  intros Hall Hne.
  assert (HP : (0 < length (tokens p))%nat).
  { destruct (tokens p); [congruence|simpl; lia]. }
  assert (Hcur : (cursor p < length (tokens p))%nat).
  { unfold cursor. destruct (Nat.ltb_spec (idx p) (length (tokens p))); lia. }
  destruct (lookup_lt_is_Some_2 (tokens p) (cursor p) Hcur) as [t Ht].
  exists t. split; [exact Ht|].
  unfold get, available_indices. rewrite (available_from_all _ _ _ Hall).
  assert (Hi : (if bool_decide (idx p ∈ seq 0 (length (tokens p)))
                then idx p else 0%nat) = cursor p).
  { unfold cursor.
    destruct (Nat.ltb_spec (idx p) (length (tokens p))) as [Hlt|Hge].
    - rewrite bool_decide_eq_true_2; [reflexivity|]. apply elem_of_seq. lia.
    - rewrite bool_decide_eq_false_2; [reflexivity|]. rewrite elem_of_seq. lia. }
  remember (cursor p) as c eqn:Ec.
  remember (length (tokens p)) as P eqn:EP.
  assert (Hidx : index_of c (seq 0 P) = Some c).
  { rewrite index_of_seq by lia. f_equal. lia. }
  assert (Hlen : length (seq 0 P) = P) by apply length_seq.
  destruct (seq 0 P) as [|first rest] eqn:Eseq; [simpl in Hlen; lia|].
  assert (Hfirst : first = 0%nat).
  { destruct P; [lia|]. simpl in Eseq. congruence. }
  subst first. cbv beta iota zeta. rewrite Hi, Ht. cbn [mbind option_bind].
  rewrite Hidx. cbn [mbind option_bind]. rewrite Hlen.
  destruct (Nat.leb_spec P (c + 1)) as [Hwrap|Hin].
  - assert (Hc : (c + 1 = P)%nat) by lia.
    rewrite Hc, Nat.Div0.mod_same. reflexivity.
  - rewrite <- Eseq, lookup_seq_lt by lia. simpl.
    rewrite Nat.mod_small by lia. reflexivity.
Qed.

(** With every entry usable at every call, call number [k] returns the
    entry at position [served p k]. *)
Lemma get_seq_all_available (nows : list Z) (p : TokenPool) :
  (forall now, In now nows -> all_available now p) -> tokens p <> [] ->
  get_seq nows p
  = map (fun k => value <$> tokens p !! served p k) (seq 0 (length nows)).
Proof.
  revert p. induction nows as [|now nows IH]; intros p Hall Hne; [reflexivity|].
  destruct (get_all_available now p) as (t & Ht & Hget);
    [apply Hall; now left | exact Hne |].
  simpl get_seq. rewrite Hget.
  set (P := length (tokens p)) in *.
  assert (HP : (0 < P)%nat).
  { subst P. destruct (tokens p); [congruence|simpl; lia]. }
  simpl length. simpl seq. simpl map. f_equal.
  - unfold served. fold P. rewrite Nat.add_0_r, Nat.mod_small.
    + now rewrite Ht.
    + unfold cursor. fold P. destruct (Nat.ltb_spec (idx p) P); lia.
  - rewrite IH; [| intros now' Hin; apply (Hall now'); now right | exact Hne].
    rewrite <- seq_shift, map_map. apply map_ext. intros k.
    unfold served, cursor. simpl tokens. simpl idx. fold P.
    assert (Hlt : ((cursor p + 1) mod P < P)%nat) by (apply Nat.mod_upper_bound; lia).
    apply Nat.ltb_lt in Hlt. unfold cursor in Hlt. fold P in Hlt. rewrite Hlt.
    rewrite Nat.Div0.add_mod_idemp_l. do 3 f_equal. lia.
Qed.

Lemma mod_below_twice (P a : nat) :
  (0 < P)%nat -> (a < 2 * P)%nat ->
  (a mod P = if (a <? P)%nat then a else a - P)%nat.
Proof.
  intros HP Ha. destruct (Nat.ltb_spec a P) as [Hlt|Hge].
  - now apply Nat.mod_small.
  - replace a with ((a - P) + 1 * P)%nat at 1 by lia.
    rewrite Nat.Div0.mod_add. apply Nat.mod_small. lia.
Qed.

(** The positions served by [P] successive calls are the positions of the
    pool, each once. *)
Lemma served_cycle (p : TokenPool) :
  tokens p <> [] ->
  Permutation (map (served p) (seq 0 (length (tokens p)))) (seq 0 (length (tokens p))).
Proof.
  intros Hne. set (P := length (tokens p)).
  assert (HP : (0 < P)%nat).
  { subst P. destruct (tokens p); [congruence|simpl; lia]. }
  assert (Hcur : (cursor p < P)%nat).
  { unfold cursor. fold P. destruct (Nat.ltb_spec (idx p) P); lia. }
  apply NoDup_Permutation_bis.
  - apply NoDup_ListNoDup.
    apply (NoDup_fmap_2_strong (served p)); [|apply NoDup_seq].
    intros k k' Hk Hk' Heq. apply elem_of_seq in Hk, Hk'.
    unfold served in Heq. fold P in Heq.
    rewrite !mod_below_twice in Heq by lia.
    destruct (Nat.ltb_spec (cursor p + k) P), (Nat.ltb_spec (cursor p + k') P); lia.
  - rewrite length_map. lia.
  - intros x Hx. apply in_map_iff in Hx as [k [<- _]].
    apply in_seq. unfold served. fold P.
    pose proof (Nat.mod_upper_bound (cursor p + k) P). lia.
Qed.

Lemma get_empty_pool (now : Z) (p : TokenPool) : tokens p = [] -> get now p = Some (None, p).
Proof. intros H. unfold get, available_indices. rewrite H. reflexivity. Qed.

Lemma get_seq_empty_pool (nows : list Z) (p : TokenPool) :
  tokens p = [] -> get_seq nows p = map (fun _ => None) nows.
Proof.
  intros H. induction nows as [|now nows IH]; [reflexivity|].
  simpl. rewrite get_empty_pool by exact H. now rewrite IH.
Qed.

Lemma map_lookup_positions (pre l : list Token) :
  map (fun i => value <$> (pre ++ l) !! i) (seq (length pre) (length l))
  = map (fun t => Some (value t)) l.
Proof.
  revert pre. induction l as [|x l IH]; intros pre; [reflexivity|].
  simpl. f_equal.
  - now rewrite list_lookup_middle.
  - specialize (IH (pre ++ [x])).
    rewrite length_app, <- app_assoc in IH. simpl in IH.
    rewrite Nat.add_1_r in IH. exact IH.
Qed.

(** C8: with every credential of a pool of size [P] available at each of
    [N >= P] successive calls of [get], every call returns, call number
    [k] returns the credential at position [(cursor + k) mod P], and the
    first [P] calls return the credentials of the pool, each position
    exactly once: none is returned a second time before each has been
    returned once. When the values of the pool are distinct, so are the
    first [P] returned values. *)
Theorem round_robin_fair (p : TokenPool) (nows : list Z) :
  (forall now, In now nows -> all_available now p) ->
  (length (tokens p) <= length nows)%nat ->
  length (get_seq nows p) = length nows
  /\ (tokens p <> [] ->
      get_seq nows p
      = map (fun k => value <$> tokens p !! served p k) (seq 0 (length nows)))
  /\ Permutation (map (served p) (seq 0 (length (tokens p))))
       (seq 0 (length (tokens p)))
  /\ Permutation (firstn (length (tokens p)) (get_seq nows p))
       (map (fun t => Some (value t)) (tokens p))
  /\ (NoDup (map value (tokens p)) ->
      NoDup (firstn (length (tokens p)) (get_seq nows p))).
Proof.
  intros Hall Hlen.
  assert (Hdistinct :
            Permutation (firstn (length (tokens p)) (get_seq nows p))
              (map (fun t => Some (value t)) (tokens p)) ->
            NoDup (map value (tokens p)) ->
            NoDup (firstn (length (tokens p)) (get_seq nows p))).
  { intros Hperm Hnd. apply NoDup_ListNoDup.
    apply (Permutation_NoDup (Permutation_sym Hperm)).
    apply NoDup_ListNoDup.
    rewrite <- (map_map value Some).
    apply (NoDup_fmap_2 Some). exact Hnd. }
  cut (length (get_seq nows p) = length nows
       /\ (tokens p <> [] ->
           get_seq nows p
           = map (fun k => value <$> tokens p !! served p k) (seq 0 (length nows)))
       /\ Permutation (map (served p) (seq 0 (length (tokens p))))
            (seq 0 (length (tokens p)))
       /\ Permutation (firstn (length (tokens p)) (get_seq nows p))
            (map (fun t => Some (value t)) (tokens p))).
  { intros (H1 & H2 & H3 & H4). repeat apply conj; try assumption. now apply Hdistinct. }
  clear Hdistinct.
  destruct (tokens p) as [|t0 ts] eqn:Htok.
  - rewrite get_seq_empty_pool by exact Htok.
    split; [apply length_map|]. split; [congruence|]. split; constructor.
  - assert (Hne : tokens p <> []) by (rewrite Htok; discriminate).
    pose proof (get_seq_all_available nows p Hall Hne) as Hseq.
    rewrite <- Htok in *.
    split; [rewrite Hseq, length_map; apply length_seq|].
    split; [intros _; exact Hseq|].
    split; [now apply served_cycle|].
    rewrite Hseq, firstn_map, take_seq, Nat.min_l by exact Hlen.
    rewrite <- (map_lookup_positions [] (tokens p)). simpl length. simpl app.
    rewrite <- (map_map (served p) (fun i => value <$> tokens p !! i)).
    apply Permutation_map. now apply served_cycle.
Qed.

Lemma round_robin_fair_witness :
  let p := new_pool (fresh_entries [lit "a"; lit "b"; lit "c"]) false in
  Permutation
    (firstn 3 (get_seq [5; 6; 7; 8] (mkPool (tokens p) false 1%nat)))
    [Some (lit "a"); Some (lit "b"); Some (lit "c")].
Proof.
  intros p.
  apply (round_robin_fair (mkPool (tokens p) false 1%nat) [5; 6; 7; 8]).
  - intros now Hin. simpl in Hin.
    destruct Hin as [<-|[<-|[<-|[<-|[]]]]]; repeat constructor; simpl; lia.
  - simpl. lia.
Defined.

(** ** Response classification *)

Lemma rate_limited_spec (st : Z) (hdr : list (str * str)) :
  rate_limited st hdr = true
  <-> st = 403 \/ header_get (lit "X-RateLimit-Remaining") hdr = Some (lit "0").
Proof.
  unfold rate_limited. rewrite orb_true_iff, Z.eqb_eq.
  destruct (header_get (lit "X-RateLimit-Remaining") hdr) as [v|].
  - unfold Str.eqb. rewrite bool_decide_eq_true. split.
    + intros [H|H]; [now left | right; now rewrite H].
    + intros [H|H]; [now left | right; congruence].
  - split; intros [H|H]; try discriminate; now left.
Qed.


Section ClassificationRules.

Variable json_loads : str -> option SearchData.
Variable json_message : str -> str.

Let search := classify_search json_loads json_message.


(** On every response whose status is below 600, the two classifications
    are the ones the specification words. *)
Lemma classification_refines_spec (r : Response) :
  outcome (search r)
  = spec_search_outcome
      (match json_loads (body r) with Some _ => true | None => false end) r
  /\ (match status r with Some st => st < 600 | None => True end ->
      outcome (classify_fetch r) = spec_fetch_outcome true r).
Proof.
  subst search.
  unfold classify_search, classify_fetch, spec_fetch_outcome, spec_search_outcome, is_5xx.
  destruct (status r) as [st|]; [|now split].
  split.
  - destruct (rate_limited st (headers r)); [reflexivity|].
    destruct (st =? 200); simpl; [|reflexivity].
    destruct (json_loads (body r)); reflexivity.
  - intros Hst. destruct (Z.leb_spec 500 st) as [H5|H5].
    + assert (H6 : (st <=? 599) = true) by (apply Z.leb_le; lia).
      now rewrite H6.
    + simpl. destruct (rate_limited st (headers r)); [reflexivity|].
      destruct (st =? 200); reflexivity.
Qed.

End ClassificationRules.


(** ** The set of found domains *)

Lemma lower_fixed_app (a b : str) :
  Str.lower (a ++ b) = a ++ b -> Str.lower a = a /\ Str.lower b = b.
Proof.
  induction a as [|c a IH]; simpl; intros H; [now split|].
  injection H as Hc Hab. destruct (IH Hab) as [Ha Hb].
  split; [|exact Hb]. now rewrite Hc, Ha.
Qed.

Lemma lower_fixed_strip (p : ascii -> bool) (s : str) :
  Str.lower s = s -> Str.lower (Str.strip p s) = Str.strip p s.
Proof.
  intros H. unfold Str.strip.
  destruct (lstrip_suffix p s) as [l Hl].
  destruct (rstrip_prefix p (Str.lstrip p s)) as [r Hr].
  rewrite Hl in H. apply lower_fixed_app in H as [_ H].
  rewrite Hr in H. now apply lower_fixed_app in H as [H _].
Qed.

Lemma edge_free_strip (p : ascii -> bool) (s : str) : edge_free p (Str.strip p s).
Proof.
  split; [apply head_free_strip|].
  unfold Str.strip, Str.rstrip. rewrite rev_involutive. apply head_free_lstrip.
Qed.

Lemma normalize_match_normal (g : str) : normal (normalize_match g).
Proof.
  unfold normalize_match. split.
  - apply lower_fixed_strip, lower_idem.
  - apply edge_free_strip.
Qed.

Lemma normal_fixed (d : str) : normal d -> normalize_match d = d.
Proof.
  intros [Hl He]. unfold normalize_match. rewrite Hl. now apply strip_edge_free.
Qed.

(** Normalizing is idempotent. *)
Lemma normalize_match_idem (g : str) :
  normalize_match (normalize_match g) = normalize_match g.
Proof. apply normal_fixed, normalize_match_normal. Qed.

Lemma normal_rstrip (d : str) : normal d -> Str.rstrip Str.is_dot d = d.
Proof. intros [_ [_ H]]. now apply rstrip_head_free_rev. Qed.

Lemma normal_same (a b : str) :
  normal a -> normal b -> same_up_to_case_and_trailing_dots a b -> a = b.
Proof.
  intros Ha Hb. unfold same_up_to_case_and_trailing_dots.
  rewrite (normal_rstrip a Ha), (normal_rstrip b Hb).
  destruct Ha as [-> _], Hb as [-> _]. trivial.
Qed.

Lemma normal_no_trailing_dots (a dots : str) :
  normal (a ++ dots) -> forallb Str.is_dot dots = true -> dots = [].
Proof.
  intros [_ [_ H]] Hd. rewrite rev_app_distr in H.
  rewrite <- forallb_rev_eq in Hd.
  assert (Hlen : length (rev dots) = length dots) by apply length_rev.
  destruct (rev dots) as [|c t]; simpl in *.
  - destruct dots; [reflexivity | discriminate Hlen].
  - apply andb_prop in Hd as [Hc _]. congruence.
Qed.

Section FoundDomains.

Context (E : Env).

Lemma record_matches_ok (raw : bool) (groups : list str) (s : State E) :
  found_ok E s -> found_ok E (record_matches E raw groups s).
Proof.
  revert s. induction groups as [|g groups IH]; intros s Hs; simpl; [exact Hs|].
  destruct (normalize_match g) as [|c d] eqn:Hg; [now apply IH|].
  destruct (bool_decide (c :: d ∈ found_domains E s)); [now apply IH|].
  apply IH. intros x Hx. simpl in Hx.
  apply elem_of_union in Hx as [Hx|Hx]; [|now apply Hs].
  apply elem_of_singleton in Hx. subst x. split; [|discriminate].
  rewrite <- Hg. apply normalize_match_normal.
Qed.

Lemma collect_ok (raw : bool) (re : Re.pattern) (tok : str)
    (results : list (Error + str)) (s : State E) :
  found_ok E s -> found_ok E (collect E raw re tok results s).
Proof.
  revert s. induction results as [|r results IH]; intros s Hs; simpl; [exact Hs|].
  destruct r as [[]|[|c text]]; try (now apply IH).
  apply IH. now apply record_matches_ok.
Qed.

Lemma say_found (m : Msg) (l : Level) (raw : bool) (s : State E) :
  found_domains E (say E m l raw s) = found_domains E s.
Proof. reflexivity. Qed.

Lemma step_ok (a : Args) (re : Re.pattern) (pc : Pc) (s : State E) :
  found_ok E s -> found_ok E (snd (step E a re (pc, s))).
Proof.
  intros Hs. unfold step.
  repeat match goal with
         | |- context [match ?x with _ => _ end] => destruct x eqn:?
         end;
    cbn [snd]; try exact Hs.
  apply collect_ok. exact Hs.
Qed.

Lemma steps_ok (n : nat) (a : Args) (re : Re.pattern) (c : Pc * State E) :
  found_ok E (snd c) -> found_ok E (snd (steps E n a re c)).
Proof.
  revert c. induction n as [|n IH]; intros [pc s] Hs; simpl; [exact Hs|].
  apply IH. now apply step_ok.
Qed.

Lemma start_ok (a : Args) (w : World E) : found_ok E (snd (snd (start E a w))).
Proof.
  assert (Hempty : forall p out w', found_ok E (mkState E p ∅ ∅ out w')).
  { intros p out w' d Hd. simpl in Hd. set_solver. }
  unfold start. destruct (build_patterns _ _) as [kw re].
  destruct (arg_version a); [apply Hempty|].
  destruct (collect_tokens _ _ _); [apply Hempty|].
  destruct (shuffle E _ w). apply Hempty.
Qed.

(** C9: at every point of a run, every entry of the set of found domains
    is normalized (lower case, no dot at either end, and not empty), so
    no two entries differ only by letter case or by trailing dots; and
    the normalization of a match is idempotent. *)
Theorem found_domains_normalized (a : Args) (w : World E) (n : nat) :
  let s := snd (main E n a w) in
  (forall d, d ∈ found_domains E s -> normalize_match d = d /\ d <> [])
  /\ (forall d1 d2, d1 ∈ found_domains E s -> d2 ∈ found_domains E s ->
      (Str.lower d1 = Str.lower d2 -> d1 = d2)
      /\ (forall dots, forallb Str.is_dot dots = true -> d1 = d2 ++ dots -> d1 = d2)
      /\ (same_up_to_case_and_trailing_dots d1 d2 -> d1 = d2))
  /\ (forall g, normalize_match (normalize_match g) = normalize_match g).
Proof.
  intros s.
  assert (Hs : found_ok E s).
  { subst s. unfold main. pose proof (start_ok a w) as H0.
    destruct (start E a w) as [re c]. now apply steps_ok. }
  split; [|split].
  - intros d Hd. destruct (Hs d Hd) as [Hn Hne]. split; [now apply normal_fixed|exact Hne].
  - intros d1 d2 H1 H2.
    destruct (Hs d1 H1) as [Hn1 _], (Hs d2 H2) as [Hn2 _].
    split; [|split].
    + destruct Hn1 as [-> _], Hn2 as [-> _]. trivial.
    + intros dots Hdots Heq. rewrite Heq in Hn1.
      rewrite (normal_no_trailing_dots d2 dots Hn1 Hdots) in Heq.
      now rewrite app_nil_r in Heq.
    + now apply normal_same.
  - apply normalize_match_idem.
Qed.

End FoundDomains.

Lemma found_domains_normalized_witness :
  lit "foo.example.com" ∈ found_domains demo_env (snd (main demo_env 3 demo_args 0))
  /\ normalize_match (lit "foo.example.com") = lit "foo.example.com".
Proof.
  assert (Hin : lit "foo.example.com"
                ∈ found_domains demo_env (snd (main demo_env 3 demo_args 0))).
  { apply elem_of_elements. vm_compute. repeat constructor. }
  split; [exact Hin|].
  pose proof (found_domains_normalized demo_env demo_args 0 3) as [H _].
  exact (proj1 (H _ Hin)).
Defined.

(** ** The stop-on-exhaustion flag *)

Section Exhaustion.

Context (E : Env).

(** With the flag set, a pass of the page loop that finds no token
    available prints the message and leaves the page loop of the current
    query only: the run goes on with the next query, or with the writing
    of the output after the last one. *)
Lemma step_exhausted (a : Args) (re : Re.pattern)
    (q : str) (page : nat) (rest : list str) (s : State E) :
  (page <= SEARCH_MAX_PAGES)%nat ->
  arg_stop_when_no_token a = true ->
  available_indices (time_now E (world E s)) (pool E s) = [] ->
  step E a re (PageLoop q page rest, s)
  = (next_query rest, say E MsgNoTokenExiting error (arg_raw a) s).
Proof.
  intros Hpage Hstop Hnone. unfold step.
  assert (Hlt : (SEARCH_MAX_PAGES <? page)%nat = false) by (apply Nat.ltb_ge; exact Hpage).
  rewrite Hlt. unfold get. rewrite Hnone, Hstop.
  destruct s; reflexivity.
Qed.

End Exhaustion.

(** C1 at a failing input: with [-k] and the only token rate-limited by the
    first search, the run does not end at the first exhaustion. After the
    exhaustion message of the first query it stands at the first page of
    the second query; it goes through all 28 queries, printing the message
    for each, writes the output and ends with status 0. *)
Theorem stop_on_exhaustion_continues :
  let qs := build_searches (lit "example.com") false in
  fst (main limited_env 2 limited_args 0)
  = PageLoop (nth 1 qs []) 1 (skipn 2 qs)
  /\ fst (main limited_env 30 limited_args 0) = Exit 0
  /\ stdout limited_env (snd (main limited_env 30 limited_args 0))
     = [Stamped MsgBanner; Stamped MsgSettings; Stamped MsgRateLimitHit]
       ++ repeat (Stamped MsgNoTokenExiting) 28
       ++ [Stamped (MsgDone 0 (lit "example.com.txt"))].
Proof. repeat split; vm_compute; reflexivity. Qed.

(** A run that finds domains: two distinct ones from three mentions. *)
Example demo_run :
  fst (main demo_env 3 demo_args 0) = Exit 0
  /\ sorted (elements (found_domains demo_env (snd (main demo_env 3 demo_args 0))))
     = [lit "bar.example.com"; lit "foo.example.com"].
Proof. split; vm_compute; reflexivity. Qed.

(* ================================================================== *)
(** * Further properties of the code *)

(** ** The token pool: availability, [get] and [disable] *)

Lemma available_from_In (i : nat) (now : Z) (ts : list Token) (j : nat) :
  In j (available_from i now ts)
  <-> (i <= j)%nat /\ exists t, ts !! (j - i)%nat = Some t /\ disabled_until t <= now.
Proof.
  revert i. induction ts as [|t ts IH]; intros i; simpl.
  - split; [intros [] | intros (_ & t & Ht & _); discriminate Ht].
  - assert (Htail : In j (available_from (S i) now ts)
                    <-> (i < j)%nat
                        /\ exists t', (t :: ts) !! (j - i)%nat = Some t'
                                      /\ disabled_until t' <= now).
    { rewrite IH. split.
      - intros (Hle & t' & Ht' & Hd). split; [lia|]. exists t'. split; [|exact Hd].
        replace (j - i)%nat with (S (j - S i)) by lia. exact Ht'.
      - intros (Hlt & t' & Ht' & Hd). split; [lia|]. exists t'. split; [|exact Hd].
        replace (j - i)%nat with (S (j - S i)) in Ht' by lia. exact Ht'. }
    destruct (Z.leb_spec (disabled_until t) now) as [Hav|Hun].
    + simpl. rewrite Htail. split.
      * intros [<-|(Hlt & Hex)].
        -- split; [lia|]. exists t. rewrite Nat.sub_diag. now split.
        -- split; [lia | exact Hex].
      * intros (Hle & t' & Ht' & Hd).
        destruct (Nat.eq_dec i j) as [->|Hne]; [now left|].
        right. split; [lia|]. now exists t'.
    + rewrite Htail. split.
      * intros (Hlt & Hex). split; [lia | exact Hex].
      * intros (Hle & t' & Ht' & Hd).
        destruct (Nat.eq_dec i j) as [->|Hne].
        -- rewrite Nat.sub_diag in Ht'. simpl in Ht'. injection Ht' as <-. lia.
        -- split; [lia|]. now exists t'.
Qed.

(** The available positions are the positions of the usable entries. *)
Lemma available_indices_In (now : Z) (p : TokenPool) (j : nat) :
  In j (available_indices now p)
  <-> exists t, tokens p !! j = Some t /\ disabled_until t <= now.
Proof.
  unfold available_indices. rewrite available_from_In, Nat.sub_0_r. split.
  - now intros [_ H].
  - intros H. split; [lia | exact H].
Qed.

(** They are listed in increasing order. *)
Lemma available_from_sorted (i : nat) (now : Z) (ts : list Token) :
  StronglySorted lt (available_from i now ts).
Proof.
  revert i. induction ts as [|t ts IH]; intros i; simpl; [constructor|].
  destruct (disabled_until t <=? now); [|apply IH].
  constructor; [apply IH|].
  apply List.Forall_forall. intros j Hj. apply available_from_In in Hj. lia.
Qed.

Lemma index_of_In (x : nat) (l : list nat) :
  In x l -> exists pos, index_of x l = Some pos /\ l !! pos = Some x.
Proof.
  induction l as [|y l IH]; simpl; [intros []|].
  destruct (Nat.eqb_spec y x) as [->|Hne].
  - intros _. now exists 0%nat.
  - intros [Heq|Hin]; [congruence|].
    destruct (IH Hin) as (pos & Hpos & Hl). exists (S pos). now rewrite Hpos.
Qed.

(** [any_available] says whether there is an available position. *)
Lemma any_available_spec (now : Z) (p : TokenPool) :
  any_available now p = true <-> available_indices now p <> [].
Proof.
  unfold any_available. rewrite existsb_exists. split.
  - intros (t & Hin & Ht) Hnil.
    apply list_elem_of_In, list_elem_of_lookup in Hin as [j Hj].
    assert (Hj' : In j (available_indices now p)).
    { apply available_indices_In. exists t. split; [exact Hj | now apply Z.leb_le]. }
    rewrite Hnil in Hj'. exact Hj'.
  - intros Hne. destruct (available_indices now p) as [|j l] eqn:E; [congruence|].
    assert (Hj : In j (available_indices now p)) by (rewrite E; now left).
    apply available_indices_In in Hj as (t & Ht & Hd).
    exists t. split; [|now apply Z.leb_le].
    apply list_elem_of_In, list_elem_of_lookup. now exists j.
Qed.

(** The shape of every call of [get]: with no available position it
    returns nothing and leaves the pool alone; otherwise it serves an
    available position [i], the cursor when the cursor is available, and
    moves the cursor to an available position [i']. *)
Lemma get_cases (now : Z) (p : TokenPool) :
  (available_indices now p = [] /\ get now p = Some (None, p))
  \/ (exists first rest i t pos i',
        available_indices now p = first :: rest
        /\ i = (if bool_decide (idx p ∈ first :: rest) then idx p else first)
        /\ In i (first :: rest)
        /\ tokens p !! i = Some t
        /\ disabled_until t <= now
        /\ index_of i (first :: rest) = Some pos
        /\ (first :: rest) !! (if (length (first :: rest) <=? pos + 1)%nat
                               then 0%nat else (pos + 1)%nat) = Some i'
        /\ get now p
           = Some (Some (value t), mkPool (tokens p) (stop_when_empty p) i')).
Proof.
  unfold get. destruct (available_indices now p) as [|first rest] eqn:E; [now left|].
  right. cbv zeta.
  set (i := if bool_decide (idx p ∈ first :: rest) then idx p else first).
  assert (Hi : In i (first :: rest)).
  { subst i. destruct (bool_decide_reflect (idx p ∈ first :: rest)) as [H|H].
    - now apply list_elem_of_In.
    - now left. }
  assert (Hav : In i (available_indices now p)) by now rewrite E.
  apply available_indices_In in Hav as (t & Ht & Hd).
  destruct (index_of_In i _ Hi) as (pos & Hpos & Hl).
  assert (Hlt : (pos < length (first :: rest))%nat) by (eapply lookup_lt_Some; eauto).
  set (nxt := if (length (first :: rest) <=? pos + 1)%nat then 0%nat else (pos + 1)%nat).
  assert (Hnxt : (nxt < length (first :: rest))%nat).
  { subst nxt. destruct (Nat.leb_spec (length (first :: rest)) (pos + 1)); simpl in *; lia. }
  destruct (lookup_lt_is_Some_2 _ _ Hnxt) as [i' Hi'].
  exists first, rest, i, t, pos, i'.
  repeat apply conj; try reflexivity; try assumption.
  rewrite Ht. cbn [mbind option_bind]. rewrite Hpos. cbn [mbind option_bind].
  fold nxt. rewrite Hi'. reflexivity.
Qed.

(** X1: [get] never raises, whatever the cursor and the timestamps; it
    returns nothing exactly when [any_available] is false, and then leaves
    the pool as it is. *)
Theorem get_never_raises (now : Z) (p : TokenPool) :
  exists r p',
    get now p = Some (r, p')
    /\ (r = None <-> any_available now p = false)
    /\ (r = None -> p' = p).
Proof.
  destruct (get_cases now p) as [[Hnil Hget]|H].
  - exists None, p. split; [exact Hget|]. split; [|reflexivity].
    split; [intros _|reflexivity].
    apply not_true_is_false. rewrite any_available_spec. now intros Hne.
  - destruct H as (first & rest & i & t & pos & i' & Hav & _ & _ & _ & _ & _ & _ & Hget).
    eexists _, _. split; [exact Hget|]. split; [|discriminate].
    split; [discriminate|]. intros Hfalse.
    assert (Htrue : any_available now p = true)
      by (apply any_available_spec; rewrite Hav; discriminate).
    congruence.
Qed.

Lemma get_some_value (now : Z) (p p' : TokenPool) (v : str) :
  get now p = Some (Some v, p') ->
  (exists i t, tokens p !! i = Some t /\ value t = v /\ disabled_until t <= now)
  /\ tokens p' = tokens p
  /\ stop_when_empty p' = stop_when_empty p
  /\ In (idx p') (available_indices now p).
Proof.
  intros Hget.
  destruct (get_cases now p) as [[_ Hnone]|H]; [congruence|].
  destruct H as (first & rest & i & t & pos & i' & Hav & _ & _ & Ht & Hd & _ & Hi' & Hsome).
  rewrite Hsome in Hget. injection Hget as <- <-.
  split; [now exists i, t|]. split; [reflexivity|]. split; [reflexivity|].
  rewrite Hav. simpl idx.
  apply list_elem_of_In, list_elem_of_lookup. eauto.
Qed.

(** X2: a value returned by [get] is the value of an entry that is
    available at that moment; the call keeps the entries and the stop flag,
    and leaves the cursor on an available position. *)
Theorem get_returns_available (now : Z) (p p' : TokenPool) (v : str) :
  get now p = Some (Some v, p') ->
  (exists i t, tokens p !! i = Some t /\ value t = v /\ disabled_until t <= now)
  /\ tokens p' = tokens p
  /\ stop_when_empty p' = stop_when_empty p
  /\ In (idx p') (available_indices now p).
Proof. apply get_some_value. Qed.

Lemma get_returns_available_witness :
  exists i t,
    tokens (new_pool (fresh_entries [lit "a"; lit "b"]) false) !! i = Some t
    /\ value t = lit "a" /\ disabled_until t <= 7.
Proof.
  apply (get_returns_available 7 (new_pool (fresh_entries [lit "a"; lit "b"]) false)
           (mkPool (fresh_entries [lit "a"; lit "b"]) false 1%nat) (lit "a")).
  reflexivity.
Defined.

Lemma sorted_next (l : list nat) (pos i i' : nat) :
  StronglySorted lt l -> l !! pos = Some i -> l !! S pos = Some i' ->
  (i < i')%nat /\ forall j, In j l -> (i < j)%nat -> (i' <= j)%nat.
Proof.
  intros Hs. revert pos. induction Hs as [|x l Hs IH Hx]; intros pos Hi Hi'; [discriminate|].
  rewrite List.Forall_forall in Hx.
  destruct pos as [|pos]; simpl in Hi, Hi'.
  - injection Hi as <-. destruct l as [|y l]; [discriminate|].
    simpl in Hi'. injection Hi' as <-.
    split; [apply Hx; now left|].
    intros j [<-|[<-|Hj]] Hlt; [lia | lia |].
    inversion Hs as [|? ? _ Hy]; subst. rewrite List.Forall_forall in Hy.
    apply Hy in Hj. lia.
  - destruct (IH pos Hi Hi') as [Hlt Hmin]. split; [exact Hlt|].
    intros j [<-|Hj] Hij; [|now apply Hmin].
    assert (Hxi : (x < i)%nat).
    { apply Hx. apply list_elem_of_In, list_elem_of_lookup. eauto. }
    lia.
Qed.

Lemma sorted_last (l : list nat) (pos i : nat) :
  StronglySorted lt l -> l !! pos = Some i -> (length l <= pos + 1)%nat ->
  forall j, In j l -> (j <= i)%nat.
Proof.
  intros Hs. revert pos. induction Hs as [|x l Hs IH Hx]; intros pos Hi Hlen j Hj; [destruct Hj|].
  rewrite List.Forall_forall in Hx.
  destruct pos as [|pos]; simpl in Hi, Hlen.
  - injection Hi as <-. destruct l; [|simpl in Hlen; lia].
    destruct Hj as [<-|[]]. lia.
  - destruct Hj as [Heq|Hj].
    + subst j. assert (Hxi : (x < i)%nat).
      { apply Hx. apply list_elem_of_In, list_elem_of_lookup. eauto. }
      lia.
    + apply (IH pos); [exact Hi | lia | exact Hj].
Qed.

(** X3: the rotation of [get]. The call serves the cursor position when
    that position is available, and the first available position
    otherwise; it moves the cursor to the next available position after
    the served one, and to the first available position when there is none
    after it. *)
Theorem get_rotation (now : Z) (p p' : TokenPool) (v : str) :
  get now p = Some (Some v, p') ->
  exists i t first,
    tokens p !! i = Some t /\ value t = v
    /\ hd_error (available_indices now p) = Some first
    /\ (In (idx p) (available_indices now p) -> i = idx p)
    /\ (~ In (idx p) (available_indices now p) -> i = first)
    /\ ((exists j, In j (available_indices now p) /\ (i < j)%nat) ->
        (i < idx p')%nat
        /\ forall j, In j (available_indices now p) -> (i < j)%nat -> (idx p' <= j)%nat)
    /\ ((forall j, In j (available_indices now p) -> (j <= i)%nat) -> idx p' = first).
Proof.
  intros Hget.
  destruct (get_cases now p) as [[_ Hnone]|H]; [congruence|].
  destruct H as (first & rest & i & t & pos & i' & Hav & Hi & Hin & Ht & Hd & Hpos & Hi' & Hsome).
  rewrite Hsome in Hget. injection Hget as <- <-.
  pose proof (available_from_sorted 0 now (tokens p)) as Hsorted.
  fold (available_indices now p) in Hsorted. rewrite Hav in *.
  destruct (index_of_In i _ Hin) as (pos' & Hpos' & Hl).
  assert (pos' = pos) as -> by congruence.
  exists i, t, first. simpl idx.
  repeat apply conj; try reflexivity; try assumption.
  - intros Hcur. rewrite Hi.
    rewrite bool_decide_eq_true_2; [reflexivity | now apply list_elem_of_In].
  - intros Hcur. rewrite Hi.
    rewrite bool_decide_eq_false_2; [reflexivity|].
    intros H. now apply list_elem_of_In in H.
  - intros (j & Hj & Hij).
    destruct (Nat.leb_spec (length (first :: rest)) (pos + 1)) as [Hlast|Hmore].
    + pose proof (sorted_last _ _ _ Hsorted Hl Hlast j Hj). lia.
    + rewrite Nat.add_1_r in Hi'. exact (sorted_next _ _ _ _ Hsorted Hl Hi').
  - intros Hmax.
    destruct (Nat.leb_spec (length (first :: rest)) (pos + 1)) as [Hlast|Hmore].
    + simpl in Hi'. congruence.
    + rewrite Nat.add_1_r in Hi'.
      destruct (sorted_next _ _ _ _ Hsorted Hl Hi') as [Hlt _].
      assert (Hin' : In i' (first :: rest))
        by (apply list_elem_of_In, list_elem_of_lookup; eauto).
      apply Hmax in Hin'. lia.
Qed.

Lemma get_rotation_witness :
  exists i t first,
    tokens (mkPool [mkToken (lit "a") 0; mkToken (lit "b") 90; mkToken (lit "c") 0]
              false 0%nat) !! i = Some t
    /\ value t = lit "a"
    /\ hd_error (available_indices 7
                   (mkPool [mkToken (lit "a") 0; mkToken (lit "b") 90; mkToken (lit "c") 0]
                      false 0%nat)) = Some first.
Proof.
  destruct (get_rotation 7
              (mkPool [mkToken (lit "a") 0; mkToken (lit "b") 90; mkToken (lit "c") 0]
                 false 0%nat)
              (mkPool [mkToken (lit "a") 0; mkToken (lit "b") 90; mkToken (lit "c") 0]
                 false 2%nat)
              (lit "a") eq_refl) as (i & t & first & H1 & H2 & H3 & _).
  now exists i, t, first.
Defined.

Lemma str_eqb_spec (a b : str) : Str.eqb a b = true <-> a = b.
Proof. unfold Str.eqb. apply bool_decide_eq_true. Qed.

Lemma disable_first_values (tok : str) (u : Z) (ts : list Token) :
  map value (disable_first tok u ts) = map value ts.
Proof.
  induction ts as [|e ts IH]; simpl; [reflexivity|].
  destruct (Str.eqb (value e) tok); simpl; [reflexivity | now rewrite IH].
Qed.

(** Position by position: the first entry with value [tok] gets the new
    timestamp, every other entry stays. *)
Lemma disable_first_lookup (tok : str) (u : Z) (ts : list Token) (i : nat) (e : Token) :
  ts !! i = Some e ->
  disable_first tok u ts !! i
  = Some (if Str.eqb (value e) tok
             && forallb (fun e2 => negb (Str.eqb (value e2) tok)) (firstn i ts)
          then mkToken (value e) u else e).
Proof.
  revert i. induction ts as [|x ts IH]; intros i Hi; [discriminate|].
  simpl. destruct (Str.eqb (value x) tok) eqn:Hx.
  - destruct i as [|i]; simpl in *.
    + injection Hi as <-. now rewrite Hx.
    + rewrite Hi, Hx. simpl. now rewrite andb_false_r.
  - destruct i as [|i]; simpl in *.
    + injection Hi as <-. now rewrite Hx.
    + rewrite (IH i Hi), Hx. reflexivity.
Qed.

(** X5: [disable] keeps the values and the order of the entries, the
    cursor and the stop flag; it gives the new timestamp [now + cooldown]
    to the first entry whose value is the token and leaves every other
    entry, also a later entry with the same value, as it is; for a token
    that is not in the pool it does nothing. *)
Theorem disable_frame (now cooldown : Z) (tok : str) (p : TokenPool) :
  let p' := disable now tok cooldown p in
  map value (tokens p') = map value (tokens p)
  /\ idx p' = idx p
  /\ stop_when_empty p' = stop_when_empty p
  /\ (~ In tok (map value (tokens p)) -> p' = p)
  /\ (forall i e, tokens p !! i = Some e ->
      tokens p' !! i
      = Some (if Str.eqb (value e) tok
                 && forallb (fun e2 => negb (Str.eqb (value e2) tok))
                      (firstn i (tokens p))
              then mkToken (value e) (now + cooldown) else e)).
Proof.
  intros p'. subst p'. unfold disable. simpl.
  repeat apply conj; try reflexivity.
  - apply disable_first_values.
  - intros Hnot. destruct p as [ts stop i]. simpl in *. f_equal.
    induction ts as [|e ts IH]; simpl; [reflexivity|].
    destruct (Str.eqb (value e) tok) eqn:He.
    + apply str_eqb_spec in He. exfalso. apply Hnot. now left.
    + f_equal. apply IH. intros H. apply Hnot. now right.
  - intros i e. apply disable_first_lookup.
Qed.

Lemma disable_first_unique (tok : str) (u : Z) (ts : list Token) (e' : Token) :
  NoDup (map value ts) -> In e' (disable_first tok u ts) -> value e' = tok ->
  disabled_until e' = u.
Proof.
  induction ts as [|x ts IH]; simpl; intros Hnd Hin He'; [destruct Hin|].
  apply NoDup_cons in Hnd as [Hx Hnd].
  destruct (Str.eqb (value x) tok) eqn:Hxt.
  - apply str_eqb_spec in Hxt. destruct Hin as [<-|Hin]; [reflexivity|].
    exfalso. apply Hx. rewrite Hxt, <- He'.
    apply list_elem_of_In. apply in_map. exact Hin.
  - destruct Hin as [<-|Hin]; [|now apply IH].
    apply str_eqb_spec in He'. congruence.
Qed.

Lemma get_after_disable (u t : Z) (tok : str) (ts : list Token) (stop : bool)
    (i : nat) (p' : TokenPool) (r : option str) :
  NoDup (map value ts) ->
  t < u ->
  get t (mkPool (disable_first tok u ts) stop i) = Some (r, p') ->
  r <> Some tok.
Proof.
  intros Hnd Ht Hget Hr. subst r.
  apply get_some_value in Hget as ((j & e & He & Hv & Hd) & _).
  simpl in He.
  assert (Hin : In e (disable_first tok u ts)).
  { apply list_elem_of_In, list_elem_of_lookup. eauto. }
  pose proof (disable_first_unique _ _ _ _ Hnd Hin Hv). lia.
Qed.

(** X4: in a pool whose values are distinct, a token disabled at [now] for
    [cooldown] is not returned by any call of [get] before
    [now + cooldown], whatever else happened to the cursor. *)
Theorem disable_excludes (now cooldown t : Z) (tok : str) (p p' : TokenPool)
    (r : option str) :
  NoDup (map value (tokens p)) ->
  t < now + cooldown ->
  get t (disable now tok cooldown p) = Some (r, p') ->
  r <> Some tok.
Proof. intros Hnd Ht. unfold disable. now apply get_after_disable. Qed.

Lemma disable_excludes_witness :
  Some (lit "b") <> Some (lit "a").
Proof.
  apply (disable_excludes 10 RATE_LIMIT_COOLDOWN 500 (lit "a")
           (new_pool (fresh_entries [lit "a"; lit "b"]) false)
           (mkPool [mkToken (lit "a") 61010; mkToken (lit "b") 0] false 1%nat)
           (Some (lit "b"))).
  - vm_compute. repeat constructor; intros H; inversion H; subst;
      try discriminate; match goal with H' : _ ∈ [] |- _ => inversion H' end.
  - vm_compute. reflexivity.
  - vm_compute. reflexivity.
Defined.

(** ** The search plan *)

Lemma build_searches_full (base : str) :
  build_searches base false
  = map (app (dquote :: base ++ [dquote]))
      ([] :: map (app (lit " language:")) DEFAULT_LANGUAGES
          ++ map (app (lit " ")) DEFAULT_NOISE).
Proof.
  unfold build_searches. simpl. now rewrite app_nil_r.
Qed.

(** X6: the plan of [build_searches]. It is never empty and starts with
    the quoted keyword alone; in quick mode that is all, otherwise 20
    language queries and 7 noise queries follow, 28 in all; every query
    begins with the quoted keyword, and no query occurs twice. *)
Theorem build_searches_plan (base : str) (quick : bool) :
  hd_error (build_searches base quick) = Some (dquote :: base ++ [dquote])
  /\ length (build_searches base quick) = (if quick then 1 else 28)%nat
  /\ (forall q, In q (build_searches base quick) ->
      exists suffix, q = (dquote :: base ++ [dquote]) ++ suffix)
  /\ NoDup (build_searches base quick).
Proof.
  destruct quick.
  - unfold build_searches. repeat apply conj; try reflexivity.
    + intros q [<-|[]]. exists []. now rewrite app_nil_r.
    + apply NoDup_singleton.
  - rewrite build_searches_full. repeat apply conj.
    + simpl. now rewrite app_nil_r.
    + rewrite length_map. reflexivity.
    + intros q Hq. apply in_map_iff in Hq as [suffix [<- _]]. now exists suffix.
    + apply (NoDup_fmap_2 (app (dquote :: base ++ [dquote]))).
      refine (bool_decide_unpack (NoDup _) _). vm_compute. exact I.
Qed.

(** ** The fan-out of a page *)

Lemma submit_spec (its : list (option str)) (seen : gset str) :
  NoDup (submit its seen).1
  /\ (forall u, In u (submit its seen).1 <-> u <> [] /\ In (Some u) its /\ u ∉ seen)
  /\ (forall u, u ∈ (submit its seen).2 <-> u ∈ seen \/ In u (submit its seen).1).
Proof.
  revert seen. induction its as [|it its IH]; intros seen.
  - simpl. split; [constructor|]. split.
    + intros u. split; [intros [] | intros (_ & [] & _)].
    + intros u. split; [now left | now intros [H|[]]].
  - assert (Hskip : (forall u, it = Some u -> u = [] \/ u ∈ seen) ->
                    submit (it :: its) seen = submit its seen).
    { intros H. simpl. destruct it as [[|c u]|]; try reflexivity.
      destruct (H (c :: u) eq_refl) as [Hnil|Hin]; [discriminate|].
      now rewrite bool_decide_eq_true_2. }
    destruct it as [[|c u0]|].
    + rewrite Hskip by (intros u [= <-]; now left).
      destruct (IH seen) as (H1 & H2 & H3). split; [exact H1|]. split; [|exact H3].
      intros u. rewrite H2. split.
      * intros (Hne & Hin & Hs). repeat split; [exact Hne | now right | exact Hs].
      * intros (Hne & [Heq|Hin] & Hs); [congruence | now repeat split].
    + destruct (decide (c :: u0 ∈ seen)) as [Hseen|Hnew].
      * rewrite Hskip by (intros u [= <-]; now right).
        destruct (IH seen) as (H1 & H2 & H3). split; [exact H1|]. split; [|exact H3].
        intros u. rewrite H2. split.
        -- intros (Hne & Hin & Hs). repeat split; [exact Hne | now right | exact Hs].
        -- intros (Hne & [Heq|Hin] & Hs); [congruence | now repeat split].
      * simpl. rewrite bool_decide_eq_false_2 by exact Hnew.
        destruct (IH ({[c :: u0]} ∪ seen)) as (H1 & H2 & H3).
        destruct (submit its ({[c :: u0]} ∪ seen)) as [urls seen'] eqn:E. simpl in *.
        split; [|split].
        -- apply NoDup_cons. split; [|exact H1].
           intros Hin. apply list_elem_of_In, H2 in Hin as (_ & _ & Hs).
           apply Hs, elem_of_union. left. now apply elem_of_singleton.
        -- intros u. rewrite H2. split.
           ++ intros [<-|(Hne & Hin & Hs)].
              ** repeat split; [discriminate | now left | exact Hnew].
              ** repeat split; [exact Hne | now right |].
                 intros H. apply Hs, elem_of_union. now right.
           ++ intros (Hne & [Heq|Hin] & Hs); [left; congruence|].
              destruct (decide (u = c :: u0)) as [->|Hd]; [now left|].
              right. repeat split; [exact Hne | exact Hin |].
              intros H. apply elem_of_union in H as [H|H]; [|contradiction].
              apply elem_of_singleton in H. congruence.
        -- intros u. rewrite H3. split.
           ++ intros [Hu|Hu]; [|now right; right].
              apply elem_of_union in Hu as [Hu|Hu]; [|now left].
              apply elem_of_singleton in Hu. right. now left.
           ++ intros [Hu|[<-|Hu]]; [left | left | now right].
              ** apply elem_of_union. now right.
              ** apply elem_of_union. left. now apply elem_of_singleton.
    + rewrite Hskip by discriminate.
      destruct (IH seen) as (H1 & H2 & H3). split; [exact H1|]. split; [|exact H3].
      intros u. rewrite H2. split.
      * intros (Hne & Hin & Hs). repeat split; [exact Hne | now right | exact Hs].
      * intros (Hne & [Heq|Hin] & Hs); [congruence | now repeat split].
Qed.

(** X7: the first loop over the items of a page hands a URL to the workers
    exactly when it is a non-empty [html_url] of an item and was not seen
    before, and hands it over once, however often the page lists it; the
    set of seen URLs grows by exactly these URLs; and the same items
    submitted again are all skipped. *)
Theorem submit_dedup (its : list (option str)) (seen : gset str) :
  NoDup (submit its seen).1
  /\ (forall u, In u (submit its seen).1 <-> u <> [] /\ In (Some u) its /\ u ∉ seen)
  /\ (forall u, u ∈ (submit its seen).2 <-> u ∈ seen \/ In u (submit its seen).1)
  /\ submit its (submit its seen).2 = ([], (submit its seen).2).
Proof.
  destruct (submit_spec its seen) as (H1 & H2 & H3).
  repeat apply conj; try assumption.
  destruct (submit_spec its (submit its seen).2) as (_ & H2' & H3').
  assert (Hnone : (submit its (submit its seen).2).1 = []).
  { destruct ((submit its (submit its seen).2).1) as [|u urls] eqn:E; [reflexivity|].
    exfalso. assert (Hu : In u (u :: urls)) by now left.
    apply H2' in Hu as (Hne & Hin & Hnot). apply Hnot, H3.
    destruct (decide (u ∈ seen)) as [Hs|Hs]; [now left|].
    right. apply H2. now repeat split. }
  assert (Hsame : (submit its (submit its seen).2).2 = (submit its seen).2).
  { apply set_eq. intros u. rewrite H3', Hnone. split; [now intros [H|[]] | now left]. }
  destruct (submit its (submit its seen).2) as [a b]. simpl in *. now subst.
Qed.

(** ** The lines of the output file *)

Lemma str_leb_total (a b : str) : str_leb a b = false -> str_leb b a = true.
Proof.
  revert b. induction a as [|x a IH]; intros [|y b]; simpl; try congruence.
  destruct (N.ltb_spec (Str.code x) (Str.code y)) as [Hxy|Hxy]; [discriminate|].
  destruct (N.ltb_spec (Str.code y) (Str.code x)) as [Hyx|Hyx]; [reflexivity|].
  apply IH.
Qed.

Lemma str_leb_antisym (a b : str) :
  str_leb a b = true -> str_leb b a = true -> a = b.
Proof.
  revert b. induction a as [|x a IH]; intros [|y b]; simpl; try congruence.
  destruct (N.ltb_spec (Str.code x) (Str.code y)) as [Hxy|Hxy];
    destruct (N.ltb_spec (Str.code y) (Str.code x)) as [Hyx|Hyx];
    try discriminate; try lia.
  intros Hab Hba. f_equal; [apply code_inj; lia | now apply IH].
Qed.

Lemma insert_sorted_perm (x : str) (l : list str) :
  Permutation (insert_sorted x l) (x :: l).
Proof.
  induction l as [|y l IH]; simpl; [reflexivity|].
  destruct (str_leb x y); [reflexivity|].
  rewrite IH. apply perm_swap.
Qed.

Lemma sorted_perm (l : list str) : Permutation (sorted l) l.
Proof.
  induction l as [|x l IH]; simpl; [reflexivity|].
  rewrite insert_sorted_perm. now constructor.
Qed.

Lemma insert_sorted_ordered (x : str) (l : list str) :
  Sorted (fun a b => str_leb a b = true) l ->
  Sorted (fun a b => str_leb a b = true) (insert_sorted x l).
Proof.
  induction 1 as [|y l Hl IH Hy]; simpl; [repeat constructor|].
  destruct (str_leb x y) eqn:Hxy.
  - constructor; [now constructor | now constructor].
  - constructor; [exact IH|].
    destruct l as [|z l]; simpl.
    + constructor. now apply str_leb_total.
    + destruct (str_leb x z); constructor; [now apply str_leb_total|].
      now inversion Hy.
Qed.

Lemma sorted_ordered (l : list str) :
  Sorted (fun a b => str_leb a b = true) (sorted l).
Proof.
  induction l as [|x l IH]; simpl; [constructor | now apply insert_sorted_ordered].
Qed.

(** X8: the lines written to the output file, [sorted(found_domains)]:
    they are the found domains, each on one line only, in ascending
    order of [str_leb], which compares code point by code point, a proper
    prefix first, and relates two different texts in one direction
    only. *)
Theorem output_lines_sorted (domains : gset str) :
  Sorted (fun a b => str_leb a b = true) (sorted (elements domains))
  /\ NoDup (sorted (elements domains))
  /\ (forall d, In d (sorted (elements domains)) <-> d ∈ domains)
  /\ (forall a b : str, str_leb a b = true \/ str_leb b a = true)
  /\ (forall a b : str, str_leb a b = true -> str_leb b a = true -> a = b)
  /\ (forall (a b : str) (x y : ascii),
      (Str.code x < Str.code y)%N -> str_leb (a ++ x :: b) (a ++ [y]) = true)
  /\ (forall a b : str, str_leb a (a ++ b) = true).
Proof.
  repeat apply conj.
  - apply sorted_ordered.
  - apply NoDup_ListNoDup.
    apply (Permutation_NoDup (Permutation_sym (sorted_perm _))).
    apply NoDup_ListNoDup, NoDup_elements.
  - intros d. rewrite <- elem_of_elements, list_elem_of_In.
    split; apply Permutation_in; [apply sorted_perm | symmetry; apply sorted_perm].
  - intros a b. destruct (str_leb a b) eqn:H; [now left | right; now apply str_leb_total].
  - apply str_leb_antisym.
  - intros a b x y Hxy. induction a as [|c a IH]; simpl.
    + apply N.ltb_lt in Hxy. now rewrite Hxy.
    + now rewrite N.ltb_irrefl.
  - intros a b. induction a as [|c a IH]; simpl; [reflexivity|].
    now rewrite N.ltb_irrefl.
Qed.

(** ** What counts as a good response *)

(** X9: [github_search] hands data on, and [fetch_code] a text, only for a
    response with status 200 whose remaining-quota header is not ["0"];
    the data is what the JSON parser made of the body, and the text is the
    body. *)
Theorem ok_only_for_200 (json_loads : str -> option SearchData)
    (json_message : str -> str) (r : Response) :
  (forall data, classify_search json_loads json_message r = inr data ->
     status r = Some 200
     /\ header_get (lit "X-RateLimit-Remaining") (headers r) <> Some (lit "0")
     /\ json_loads (body r) = Some data)
  /\ (forall text, classify_fetch r = inr text ->
     status r = Some 200
     /\ header_get (lit "X-RateLimit-Remaining") (headers r) <> Some (lit "0")
     /\ text = body r).
Proof.
  unfold classify_search, classify_fetch.
  destruct (status r) as [st|]; [|split; intros ? H; discriminate H].
  destruct (rate_limited st (headers r)) eqn:Hrl.
  { split; intros ? H; [discriminate H|].
    destruct (500 <=? st); discriminate H. }
  assert (Hhdr : header_get (lit "X-RateLimit-Remaining") (headers r) <> Some (lit "0")).
  { intros H. assert (Ht : rate_limited st (headers r) = true)
      by (apply rate_limited_spec; now right).
    congruence. }
  destruct (Z.eqb_spec st 200) as [->|Hne]; simpl.
  - split.
    + intros data H. destruct (json_loads (body r)); [|discriminate H].
      injection H as <-. now repeat split.
    + intros text H. injection H as <-. now repeat split.
  - split; intros ? H; [discriminate H|].
    destruct (500 <=? st); discriminate H.
Qed.

(** ** Reading the token file *)

Lemma read_lines_In (lines toks : list str) (t : str) :
  In t (read_lines lines toks)
  <-> In t toks
      \/ exists line, In line lines /\ t = Str.strip Str.is_space line
                      /\ t <> [] /\ valid_token t.
Proof.
  revert toks. induction lines as [|line lines IH]; intros toks; simpl.
  - split; [now left | intros [H|(line & [] & _)]; exact H].
  - set (x := Str.strip Str.is_space line).
    destruct (negb (Str.eqb x []) && Re.search TOKEN_RE x
              && negb (bool_decide (x ∈ toks))) eqn:Hc.
    + apply andb_prop in Hc as [Hc Hnew]. apply andb_prop in Hc as [Hne Hre].
      apply negb_true_iff in Hne.
      assert (Hx : x <> []) by (intros H; apply str_eqb_spec in H; congruence).
      rewrite IH, in_app_iff. split.
      * intros [[H|[<-|[]]]|(l & Hl & Ht)].
        -- now left.
        -- right. exists line. repeat split; [now left | exact Hx | exact Hre].
        -- right. exists l. split; [now right | exact Ht].
      * intros [H|(l & [<-|Hl] & Ht)].
        -- left. now left.
        -- destruct Ht as (-> & _). left. right. now left.
        -- right. now exists l.
    + rewrite IH. split.
      * intros [H|(l & Hl & Ht)]; [now left|]. right. exists l. split; [now right | exact Ht].
      * intros [H|(l & [<-|Hl] & Ht)]; [now left | | right; now exists l].
        destruct Ht as (Ht & Hne & Hv). fold x in Ht. subst t.
        left. apply andb_false_iff in Hc as [Hc|Hc].
        -- apply andb_false_iff in Hc as [Hc|Hc].
           ++ apply negb_false_iff, str_eqb_spec in Hc. congruence.
           ++ unfold valid_token in Hv. congruence.
        -- apply negb_false_iff, bool_decide_eq_true in Hc. now apply list_elem_of_In.
Qed.

(** X10: [read_tokens_from_file] returns, without repeats, exactly the
    lines of the file that, stripped of surrounding whitespace, are not
    empty and contain a text of the shape of [TOKEN_RE]; a file that does
    not exist gives no token. *)
Theorem read_tokens_from_file_spec (file : option (list str)) :
  NoDup (read_tokens_from_file file)
  /\ (forall t, In t (read_tokens_from_file file)
      <-> exists lines line,
          file = Some lines /\ In line lines /\ t = Str.strip Str.is_space line
          /\ t <> [] /\ valid_token t)
  /\ (file = None -> read_tokens_from_file file = []).
Proof.
  split; [apply read_tokens_from_file_ok|]. split; [|now intros ->].
  intros t. destruct file as [lines|]; simpl.
  - rewrite read_lines_In. split.
    + intros [[]|(line & H)]. now exists lines, line.
    + intros (lines' & line & [= <-] & H). right. now exists line.
  - split; [intros [] | intros (? & ? & H & _); discriminate H].
Qed.

(** ** The languages of the patterns of the script *)

Lemma matches_cat (ic : bool) (a b : Re.regex) (g : str) :
  ReSpec.matches ic (Re.Cat a b) g
  <-> exists g1 g2, g = g1 ++ g2 /\ ReSpec.matches ic a g1 /\ ReSpec.matches ic b g2.
Proof.
  split.
  - intros H. inversion H; subst. eauto.
  - intros (g1 & g2 & -> & H1 & H2). now constructor.
Qed.

Lemma matches_alt (ic : bool) (a b : Re.regex) (g : str) :
  ReSpec.matches ic (Re.Alt a b) g <-> ReSpec.matches ic a g \/ ReSpec.matches ic b g.
Proof.
  split.
  - intros H. inversion H; subst; [now left | now right].
  - intros [H|H]; [now apply ReSpec.M_AltL | now apply ReSpec.M_AltR].
Qed.

Lemma matches_opt (ic : bool) (a : Re.regex) (g : str) :
  ReSpec.matches ic (Re.Opt a) g <-> g = [] \/ ReSpec.matches ic a g.
Proof.
  split.
  - intros H. inversion H; subst; [now left | now right].
  - intros [->|H]; [apply ReSpec.M_OptNone | now apply ReSpec.M_OptSome].
Qed.

Lemma matches_rep (ic : bool) (items : list Re.item) (lo : nat) (hi : option nat) (g : str) :
  ReSpec.matches ic (Re.Rep items lo hi) g
  <-> forallb (Re.in_class ic items) g = true
      /\ (lo <= length g)%nat
      /\ match hi with Some h => (length g <= h)%nat | None => True end.
Proof.
  split.
  - intros H. inversion H; subst. now repeat split.
  - intros (H1 & H2 & H3). now constructor.
Qed.

Lemma matches_lit (ic : bool) (x : ascii) (g : str) :
  ReSpec.matches ic (Re.Lit x) g <-> exists c, g = [c] /\ Re.lit_eq ic x c = true.
Proof.
  split.
  - intros H. inversion H; subst. eauto.
  - intros (c & -> & H). now constructor.
Qed.

Lemma lit_eq_exact (x c : ascii) : Re.lit_eq false x c = true <-> x = c.
Proof.
  unfold Re.lit_eq. rewrite orb_false_r, N.eqb_eq. split; [apply code_inj | now intros ->].
Qed.

Lemma lit_eq_nocase (x c : ascii) :
  Re.lit_eq true x c = true <-> Str.to_lower x = Str.to_lower c.
Proof.
  unfold Re.lit_eq. cbn [andb]. rewrite orb_true_iff, !N.eqb_eq. split.
  - intros [H|H]; apply code_inj in H; now subst.
  - intros H. right. now rewrite H.
Qed.

(** Without [(?i)] an escaped text matches itself only. *)
Lemma matches_escape_exact (t g : str) :
  ReSpec.matches false (Re.escape t) g <-> g = t.
Proof.
  revert g. induction t as [|x t IH]; intros g; simpl.
  - split; [intros H; now inversion H | intros ->; constructor].
  - rewrite matches_cat. split.
    + intros (g1 & g2 & -> & H1 & H2).
      apply matches_lit in H1 as (c & -> & Hc). apply lit_eq_exact in Hc.
      apply IH in H2. now subst.
    + intros ->. exists [x], t. repeat split.
      * apply matches_lit. exists x. split; [reflexivity | now apply lit_eq_exact].
      * now apply IH.
Qed.

(** Under [(?i)] it matches the texts that are the same up to case. *)
Lemma matches_escape_nocase (t g : str) :
  ReSpec.matches true (Re.escape t) g <-> same_up_to_case g t.
Proof.
  unfold same_up_to_case. revert g. induction t as [|x t IH]; intros g; simpl.
  - split.
    + intros H. now inversion H.
    + intros H. destruct g; [constructor | discriminate H].
  - rewrite matches_cat. split.
    + intros (g1 & g2 & -> & H1 & H2).
      apply matches_lit in H1 as (c & -> & Hc). apply lit_eq_nocase in Hc.
      apply IH in H2. simpl. now rewrite Hc, H2.
    + intros H. destruct g as [|c g]; [discriminate H|].
      simpl in H. injection H as Hc Hg.
      exists [c], g. repeat split.
      * apply matches_lit. exists c. split; [reflexivity | now apply lit_eq_nocase].
      * now apply IH.
Qed.

Lemma matches_dot (g : str) :
  ReSpec.matches true dot g <-> g = lit ".".
Proof.
  unfold dot. rewrite matches_lit. split.
  - intros (c & -> & Hc). apply lit_eq_nocase in Hc.
    f_equal. revert Hc. by_cases_on_char c.
  - intros ->. exists "."%char. now split.
Qed.

(** Concatenating two escaped texts concatenates the texts. *)
Lemma same_up_to_case_app (g a b : str) :
  same_up_to_case g (a ++ b)
  <-> exists g1 g2, g = g1 ++ g2 /\ same_up_to_case g1 a /\ same_up_to_case g2 b.
Proof.
  unfold same_up_to_case. split.
  - intros H. exists (firstn (length a) g), (skipn (length a) g).
    split; [symmetry; apply firstn_skipn|].
    rewrite lower_app in H. unfold Str.lower in *.
    rewrite <- firstn_map, <- skipn_map, H.
    rewrite <- (length_map Str.to_lower a).
    now rewrite take_app_length, drop_app_length.
  - intros (g1 & g2 & -> & H1 & H2). now rewrite !lower_app, H1, H2.
Qed.

Lemma class_has_hex (c : ascii) :
  Re.in_class false [Re.Range "0" "9"; Re.Range "a" "f"] c = is_hex c.
Proof. by_cases_on_char c. Qed.

Lemma class_has_alnum (c : ascii) :
  Re.in_class false [Re.Range "A" "Z"; Re.Range "a" "z"; Re.Range "0" "9"] c = is_alnum c.
Proof. by_cases_on_char c. Qed.

Lemma class_has_alnum_or_underscore (c : ascii) :
  Re.in_class false
    [Re.Single "_"; Re.Range "A" "Z"; Re.Range "a" "z"; Re.Range "0" "9"] c
  = is_alnum_or_underscore c.
Proof. by_cases_on_char c. Qed.

Lemma forallb_ext_eq (f g : ascii -> bool) (s : str) :
  (forall c, f c = g c) -> forallb f s = forallb g s.
Proof. intros H. induction s as [|c s IH]; simpl; [reflexivity | now rewrite H, IH]. Qed.

(** The language of [TOKEN_RE]. *)
Lemma token_re_language (g : str) :
  ReSpec.matches false (Re.expr TOKEN_RE) g <-> token_shape g.
Proof.
  unfold TOKEN_RE, token_shape. cbn [Re.expr].
  rewrite !matches_alt, !matches_cat.
  setoid_rewrite matches_escape_exact. setoid_rewrite matches_rep.
  rewrite (forallb_ext_eq _ _ g class_has_hex).
  split.
  - intros [(H1 & H2 & H3)|[(g1 & g2 & -> & -> & H1 & H2 & H3)|(g1 & g2 & -> & -> & H1 & H2 & H3)]].
    + left. split; [lia | exact H1].
    + right. left. exists g2. rewrite <- (forallb_ext_eq _ _ g2 class_has_alnum).
      repeat split; [lia | exact H1].
    + right. right. exists g2.
      rewrite <- (forallb_ext_eq _ _ g2 class_has_alnum_or_underscore).
      repeat split; [lia | exact H1].
  - intros [(H1 & H2)|[(x & -> & H1 & H2)|(x & -> & H1 & H2)]].
    + left. repeat split; [exact H2 | lia | lia].
    + right. left. exists (lit "ghp_"), x.
      rewrite (forallb_ext_eq _ _ x class_has_alnum).
      repeat split; [exact H2 | lia | lia].
    + right. right. exists (lit "github_pat_"), x.
      rewrite (forallb_ext_eq _ _ x class_has_alnum_or_underscore).
      repeat split; [exact H2 | lia | lia].
Qed.

(** X11: the token test, [TOKEN_RE.search(t)], accepts exactly the texts
    that contain, anywhere, a part of one of the three token shapes: 40
    lower-case hexadecimal digits, [ghp_] followed by 36 letters or digits,
    or [github_pat_] followed by 82 letters, digits or underscores. What
    surrounds that part is not looked at. *)
Theorem token_test_accepts (t : str) :
  valid_token t <-> exists pre g post, t = pre ++ g ++ post /\ token_shape g.
Proof.
  unfold valid_token. rewrite search_spec.
  split; intros (pre & g & post & Ht & Hg); exists pre, g, post;
    (split; [exact Ht|]); now apply token_re_language.
Qed.

Lemma in_class_host (c : ascii) : Re.in_class true host_chars c = is_host_char c.
Proof. by_cases_on_char c. Qed.

Lemma in_class_label (c : ascii) : Re.in_class true label_chars c = is_label_char c.
Proof. by_cases_on_char c. Qed.

Lemma in_class_letter (c : ascii) : Re.in_class true [Re.Range "a" "z"] c = is_letter c.
Proof. by_cases_on_char c. Qed.

Lemma matches_dot_nocase (g : str) :
  ReSpec.matches true dot g <-> same_up_to_case g (lit ".").
Proof.
  rewrite matches_dot. unfold same_up_to_case. split; [now intros ->|].
  destruct g as [|c [|c' g]]; try discriminate. simpl. intros [= H].
  f_equal. revert H. by_cases_on_char c.
Qed.

Lemma cat_language (a b : Re.regex) (ta tb : str) :
  (forall g, ReSpec.matches true a g <-> same_up_to_case g ta) ->
  (forall g, ReSpec.matches true b g <-> same_up_to_case g tb) ->
  forall g, ReSpec.matches true (Re.Cat a b) g <-> same_up_to_case g (ta ++ tb).
Proof.
  intros Ha Hb g. rewrite matches_cat, same_up_to_case_app.
  split; intros (g1 & g2 & Hg & H1 & H2); exists g1, g2;
    (split; [exact Hg|]); split; first [now apply Ha | now apply Hb].
Qed.

Lemma matches_plus (items : list Re.item) (g : str) :
  ReSpec.matches true (Re.Plus items) g
  <-> g <> [] /\ forallb (Re.in_class true items) g = true.
Proof.
  unfold Re.Plus. rewrite matches_rep. split.
  - intros (H1 & H2 & _). split; [|exact H1]. intros ->. simpl in H2. lia.
  - intros (H1 & H2). repeat split; [exact H2|]. destruct g; [congruence | simpl; lia].
Qed.

Lemma matches_opt_plus (items : list Re.item) (g : str) :
  ReSpec.matches true (Re.Opt (Re.Plus items)) g
  <-> forallb (Re.in_class true items) g = true.
Proof.
  rewrite matches_opt, matches_plus. split.
  - intros [->|[_ H]]; [reflexivity | exact H].
  - intros H. destruct g as [|c g]; [now left|]. right. split; [discriminate | exact H].
Qed.

Lemma standard_language (d g : str) :
  Re.ignorecase (standard_pattern d) = true
  /\ (ReSpec.matches true (Re.expr (standard_pattern d)) g
      <-> exists pre core,
          g = pre ++ core
          /\ same_up_to_case core (fst (build_patterns d false))
          /\ (pre = []
              \/ exists h, pre = h ++ lit "." /\ h <> []
                           /\ forallb is_host_char h = true)).
Proof.
  unfold standard_pattern, build_patterns.
  destruct (split_domain d) as [[sub reg] tld].
  assert (Hcore : exists core kw,
             (forall x, ReSpec.matches true core x <-> same_up_to_case x kw)
             /\ (let '(search, core) :=
                   match sub with
                   | _ :: _ =>
                       (sub ++ lit "." ++ reg ++ lit "." ++ tld,
                        Re.Cat (Re.escape sub)
                          (Re.Cat dot (Re.Cat (Re.escape reg) (Re.Cat dot (Re.escape tld)))))
                   | [] =>
                       (reg ++ lit "." ++ tld,
                        Re.Cat (Re.escape reg) (Re.Cat dot (Re.escape tld)))
                   end in
                 (search,
                  Re.Pattern true (Re.Cat (Re.Opt (Re.Cat (Re.Plus host_chars) dot)) core)))
                = (kw, Re.Pattern true
                         (Re.Cat (Re.Opt (Re.Cat (Re.Plus host_chars) dot)) core))).
  { destruct sub as [|c sub]; eexists _, _; (split; [|reflexivity]).
    - apply cat_language; [intros; apply matches_escape_nocase|].
      apply cat_language; [apply matches_dot_nocase | intros; apply matches_escape_nocase].
    - apply cat_language; [intros; apply matches_escape_nocase|].
      apply cat_language; [apply matches_dot_nocase|].
      apply cat_language; [intros; apply matches_escape_nocase|].
      apply cat_language; [apply matches_dot_nocase | intros; apply matches_escape_nocase]. }
  destruct Hcore as (core & kw & Hlang & ->). simpl.
  split; [reflexivity|].
  rewrite matches_cat. split.
  - intros (pre & x & -> & Hpre & Hx). exists pre, x.
    split; [reflexivity|]. split; [now apply Hlang|].
    apply matches_opt in Hpre as [->|Hpre]; [now left|]. right.
    apply matches_cat in Hpre as (h & dt & -> & Hh & Hdt).
    apply matches_dot in Hdt as ->. apply matches_plus in Hh as [Hne Hall].
    exists h. repeat split; [exact Hne|].
    now rewrite <- (forallb_ext_eq _ _ h in_class_host).
  - intros (pre & x & -> & Hx & Hpre). exists pre, x.
    split; [reflexivity|]. split; [|now apply Hlang].
    apply matches_opt. destruct Hpre as [->|(h & -> & Hne & Hall)]; [now left|].
    right. apply matches_cat. exists h, (lit "."). split; [reflexivity|].
    split; [|now apply matches_dot].
    apply matches_plus. split; [exact Hne|].
    now rewrite (forallb_ext_eq _ _ h in_class_host).
Qed.

(** X12: the language of the standard-mode pattern, for an ASCII target
    and among ASCII texts. It is case-insensitive and matches exactly the
    ASCII texts made of the search keyword, in any letter case, either
    alone or after a non-empty run of host characters (letters, digits,
    [-], [.]) and a dot. *)
Theorem standard_pattern_language (d g : str) :
  is_ascii_text d -> is_ascii_text g ->
  Re.ignorecase (standard_pattern d) = true
  /\ (ReSpec.matches true (Re.expr (standard_pattern d)) g
      <-> exists pre core,
          g = pre ++ core
          /\ same_up_to_case core (fst (build_patterns d false))
          /\ (pre = []
              \/ exists h, pre = h ++ lit "." /\ h <> []
                           /\ forallb is_host_char h = true)).
Proof. intros _ _. apply standard_language. Qed.

Lemma standard_pattern_language_witness :
  ReSpec.matches true (Re.expr (standard_pattern (lit " Example.COM. ")))
    (lit "Foo.bar.EXAMPLE.com")
  /\ ~ ReSpec.matches true (Re.expr (standard_pattern (lit " Example.COM. ")))
        (lit "fooexample.com").
Proof.
  pose proof (standard_pattern_language (lit " Example.COM. ") (lit "Foo.bar.EXAMPLE.com")
                eq_refl eq_refl) as (_ & _ & Hyes).
  pose proof (standard_pattern_language (lit " Example.COM. ") (lit "fooexample.com")
                eq_refl eq_refl) as (_ & Hno & _).
  split.
  - apply Hyes. exists (lit "Foo.bar."), (lit "EXAMPLE.com").
    split; [reflexivity|]. split; [reflexivity|].
    right. exists (lit "Foo.bar"). split; [reflexivity|].
    split; [discriminate | reflexivity].
  - intros Hm. destruct (Hno Hm) as (pre & core & Heq & Hcase & Hpre).
    assert (Hlen : length core = 11%nat).
    { unfold same_up_to_case in Hcase.
      apply (f_equal (@length ascii)) in Hcase.
      unfold Str.lower in Hcase. rewrite length_map in Hcase. exact Hcase. }
    assert (Hp : pre = lit "foo").
    { apply (f_equal (@length ascii)) in Heq as Hl. rewrite length_app, Hlen in Hl.
      simpl in Hl.
      destruct pre as [|c1 [|c2 [|c3 [|c4 pre]]]]; simpl in Hl; try lia.
      simpl in Heq. now injection Heq as <- <- <- _. }
    subst pre. destruct Hpre as [Hnil|(h & Hh & _)]; [discriminate Hnil|].
    destruct h as [|x [|y [|z h]]]; simpl in Hh; try discriminate Hh.
    injection Hh as _ _ _ Hh. now destruct h.
Defined.

Lemma extended_language (d g : str) :
  Re.ignorecase (extended_pattern d) = true
  /\ (ReSpec.matches true (Re.expr (extended_pattern d)) g
      <-> exists a b m c e,
          g = a ++ lit "." ++ b ++ m ++ c ++ lit "." ++ e
          /\ a <> [] /\ forallb is_host_char a = true
          /\ forallb is_label_char b = true
          /\ same_up_to_case m (fst (build_patterns d true))
          /\ forallb is_host_char c = true
          /\ (1 <= length e <= 5)%nat /\ forallb is_letter e = true).
Proof.
  unfold extended_pattern, build_patterns.
  destruct (split_domain d) as [[sub reg] tld]. simpl.
  split; [reflexivity|].
  rewrite matches_cat. setoid_rewrite matches_cat. split.
  - intros (a & x1 & -> & Ha & dt & x2 & -> & Hdt & H).
    apply matches_cat in H as (b & x3 & -> & Hb & H).
    apply matches_cat in H as (m & x4 & -> & Hm & H).
    apply matches_cat in H as (c & x5 & -> & Hc & H).
    apply matches_cat in H as (dt' & e & -> & Hdt' & He).
    apply matches_dot in Hdt as ->. apply matches_dot in Hdt' as ->.
    apply matches_plus in Ha as [Hane Ha].
    apply matches_opt_plus in Hb. apply matches_opt_plus in Hc.
    apply matches_escape_nocase in Hm.
    apply matches_rep in He as (He & Hlo & Hhi).
    exists a, b, m, c, e.
    rewrite <- (forallb_ext_eq _ _ a in_class_host),
      <- (forallb_ext_eq _ _ b in_class_label),
      <- (forallb_ext_eq _ _ c in_class_host),
      <- (forallb_ext_eq _ _ e in_class_letter).
    repeat split; assumption.
  - intros (a & b & m & c & e & -> & Hane & Ha & Hb & Hm & Hc & [Hlo Hhi] & He).
    rewrite <- (forallb_ext_eq _ _ a in_class_host) in Ha.
    rewrite <- (forallb_ext_eq _ _ b in_class_label) in Hb.
    rewrite <- (forallb_ext_eq _ _ c in_class_host) in Hc.
    rewrite <- (forallb_ext_eq _ _ e in_class_letter) in He.
    exists a, (lit "." ++ b ++ m ++ c ++ lit "." ++ e).
    split; [reflexivity|]. split; [now apply matches_plus|].
    exists (lit "."), (b ++ m ++ c ++ lit "." ++ e).
    split; [reflexivity|]. split; [now apply matches_dot|].
    apply matches_cat. exists b, (m ++ c ++ lit "." ++ e).
    split; [reflexivity|]. split; [now apply matches_opt_plus|].
    apply matches_cat. exists m, (c ++ lit "." ++ e).
    split; [reflexivity|]. split; [now apply matches_escape_nocase|].
    apply matches_cat. exists c, (lit "." ++ e).
    split; [reflexivity|]. split; [now apply matches_opt_plus|].
    apply matches_cat. exists (lit "."), e.
    split; [reflexivity|]. split; [now apply matches_dot|].
    apply matches_rep. now repeat split.
Qed.

(** X13: the language of the extended-mode pattern, for an ASCII target
    and among ASCII texts. It matches exactly the ASCII texts made of a
    non-empty run of host characters, a dot, a possibly empty run of label
    characters (letters, digits, [-]), the registrable name in any letter
    case, a possibly empty run of host characters, a dot and one to five
    letters. In particular every match has a dot before the registrable
    name. *)
Theorem extended_pattern_language (d g : str) :
  is_ascii_text d -> is_ascii_text g ->
  Re.ignorecase (extended_pattern d) = true
  /\ (ReSpec.matches true (Re.expr (extended_pattern d)) g
      <-> exists a b m c e,
          g = a ++ lit "." ++ b ++ m ++ c ++ lit "." ++ e
          /\ a <> [] /\ forallb is_host_char a = true
          /\ forallb is_label_char b = true
          /\ same_up_to_case m (fst (build_patterns d true))
          /\ forallb is_host_char c = true
          /\ (1 <= length e <= 5)%nat /\ forallb is_letter e = true).
Proof. intros _ _. apply extended_language. Qed.

Lemma extended_pattern_language_witness :
  ReSpec.matches true (Re.expr (extended_pattern (lit "www.Example.com")))
    (lit "cdn.my-EXAMPLE-shop.co.UK").
Proof.
  pose proof (extended_pattern_language (lit "www.Example.com")
                (lit "cdn.my-EXAMPLE-shop.co.UK") eq_refl eq_refl) as (_ & _ & Hyes).
  apply Hyes.
  exists (lit "cdn"), (lit "my-"), (lit "EXAMPLE"), (lit "-shop.co"), (lit "UK").
  repeat apply conj; try reflexivity; [discriminate | simpl; lia | simpl; lia].
Defined.

(** ** Invariants of a run *)

Section RunInvariants.

Context (E : Env).

Lemma steps_invariant (I : Pc * State E -> Prop) (a : Args) (re : Re.pattern) :
  (forall c, I c -> I (step E a re c)) ->
  forall n c, I c -> I (steps E n a re c).
Proof.
  intros Hstep. induction n as [|n IH]; intros c Hc; simpl; [exact Hc|].
  apply IH, Hstep, Hc.
Qed.

Lemma steps_add (n k : nat) (a : Args) (re : Re.pattern) (c : Pc * State E) :
  steps E (n + k) a re c = steps E k a re (steps E n a re c).
Proof. revert c. induction n as [|n IH]; intros c; simpl; [reflexivity | apply IH]. Qed.

Lemma main_steps (n : nat) (a : Args) (w : World E) :
  main E n a w = steps E n a (start E a w).1 (start E a w).2.
Proof. unfold main. now destruct (start E a w). Qed.

(** A call of [get] in a step never takes the branch of an exception. *)
Lemma get_some (now : Z) (p : TokenPool) :
  exists r p', get now p = Some (r, p')
               /\ tokens p' = tokens p /\ stop_when_empty p' = stop_when_empty p.
Proof.
  destruct (get_cases now p) as [[_ H]|H].
  - now exists None, p.
  - destruct H as (? & ? & ? & t & ? & i' & _ & _ & _ & _ & _ & _ & _ & H).
    eexists _, _. split; [exact H|]. now split.
Qed.

Lemma found_lines_app (a b : list Line) :
  found_lines (a ++ b) = found_lines a ++ found_lines b.
Proof.
  induction a as [|l a IH]; simpl; [reflexivity|].
  destruct l as [[]|[]]; simpl; now rewrite IH.
Qed.

Lemma found_lines_log_found (d : str) (raw : bool) (out : list Line) :
  found_lines (log (MsgFound d) found raw out) = found_lines out ++ [d].
Proof. destruct raw; simpl; now rewrite found_lines_app. Qed.

Lemma printed_once_found (d : str) (raw : bool) (f : gset str) (out : list Line) :
  printed_once f out -> d ∉ f ->
  printed_once ({[d]} ∪ f) (log (MsgFound d) found raw out).
Proof.
  intros [Hnd Hin] Hd. unfold printed_once. rewrite found_lines_log_found. split.
  - apply NoDup_app. split; [exact Hnd|]. split; [|apply NoDup_singleton].
    intros x Hx Hx'. apply list_elem_of_singleton in Hx'. subst x.
    apply Hd, Hin. now apply list_elem_of_In.
  - intros x. rewrite in_app_iff, Hin, elem_of_union, elem_of_singleton. simpl.
    split; [intros [H|[H|[]]]; auto | intros [->|H]; auto].
Qed.

Lemma record_matches_printed (raw : bool) (groups : list str) (s : State E) :
  printed_once (found_domains E s) (stdout E s) ->
  printed_once (found_domains E (record_matches E raw groups s))
    (stdout E (record_matches E raw groups s)).
Proof.
  revert s. induction groups as [|g groups IH]; intros s Hs; simpl; [exact Hs|].
  destruct (normalize_match g) as [|c d] eqn:Hg; [now apply IH|].
  destruct (bool_decide_reflect (c :: d ∈ found_domains E s)) as [Hin|Hnew];
    [now apply IH|].
  apply IH. cbn [found_domains stdout say]. now apply printed_once_found.
Qed.

Lemma collect_printed (raw : bool) (re : Re.pattern) (tok : str)
    (results : list (Error + str)) (s : State E) :
  printed_once (found_domains E s) (stdout E s) ->
  printed_once (found_domains E (collect E raw re tok results s))
    (stdout E (collect E raw re tok results s)).
Proof.
  revert s. induction results as [|r results IH]; intros s Hs; simpl; [exact Hs|].
  destruct r as [[]|[|c text]]; try (now apply IH).
  apply IH. now apply record_matches_printed.
Qed.

Lemma printed_once_other (f : gset str) (out : list Line) (l : Line) :
  found_lines [l] = [] -> printed_once f out -> printed_once f (out ++ [l]).
Proof.
  intros Hl [H1 H2]. unfold printed_once.
  rewrite found_lines_app, Hl, app_nil_r. now split.
Qed.

Lemma step_printed (a : Args) (re : Re.pattern) (c : Pc * State E) :
  printed_once (found_domains E c.2) (stdout E c.2) ->
  printed_once (found_domains E (step E a re c).2) (stdout E (step E a re c).2).
Proof.
  destruct c as [pc s]. cbn [snd]. intros Hs. unfold step.
  destruct (arg_raw a);
    repeat match goal with
           | |- context [match ?x with _ => _ end] => destruct x eqn:?
           end;
    cbn [snd found_domains stdout say sleep set_world set_pool disable_now log];
    first [ exact Hs
          | apply printed_once_other; [reflexivity | exact Hs]
          | apply collect_printed; exact Hs ].
Qed.

(** X15: every found domain is printed when it is found, and only then:
    at every point of a run the found domains among the printed lines are
    the members of the set of found domains, each printed once, in raw
    mode and in normal mode alike. *)
Theorem found_printed_once (a : Args) (w : World E) (n : nat) :
  NoDup (found_lines (stdout E (main E n a w).2))
  /\ (forall d, In d (found_lines (stdout E (main E n a w).2))
      <-> d ∈ found_domains E (main E n a w).2).
Proof.
  rewrite main_steps.
  apply (steps_invariant
           (fun c => printed_once (found_domains E c.2) (stdout E c.2)) a _
           (step_printed a _)).
  assert (Hempty : forall out, found_lines out = [] -> printed_once (∅ : gset str) out).
  { intros out Hout. unfold printed_once. rewrite Hout. split; [constructor|].
    intros d. split; [intros [] | intros H; now apply not_elem_of_empty in H]. }
  unfold start. destruct (build_patterns _ _) as [kw re].
  destruct (arg_version a); [now apply Hempty|].
  destruct (collect_tokens _ _ _).
  - apply Hempty. cbn [snd stdout]. now destruct (arg_raw a).
  - destruct (shuffle E _ w). apply Hempty. cbn [snd stdout]. now destruct (arg_raw a).
Qed.





Lemma record_matches_grows (raw : bool) (groups : list str) (s : State E) :
  found_domains E s ⊆ found_domains E (record_matches E raw groups s)
  /\ seen_urls E (record_matches E raw groups s) = seen_urls E s
  /\ pool E (record_matches E raw groups s) = pool E s.
Proof.
  revert s. induction groups as [|g groups IH]; intros s; simpl; [easy|].
  destruct (normalize_match g) as [|c d]; [apply IH|].
  destruct (bool_decide (c :: d ∈ found_domains E s)); [apply IH|].
  match goal with |- context [record_matches E raw groups ?s'] =>
    destruct (IH s') as (H1 & H2 & H3) end.
  cbn [found_domains seen_urls pool say] in *.
  split; [|now split]. intros x Hx. apply H1, elem_of_union. now right.
Qed.

Lemma collect_grows (raw : bool) (re : Re.pattern) (tok : str)
    (results : list (Error + str)) (s : State E) :
  found_domains E s ⊆ found_domains E (collect E raw re tok results s)
  /\ seen_urls E (collect E raw re tok results s) = seen_urls E s
  /\ map value (tokens (pool E (collect E raw re tok results s)))
     = map value (tokens (pool E s))
  /\ stop_when_empty (pool E (collect E raw re tok results s))
     = stop_when_empty (pool E s).
Proof.
  revert s. induction results as [|r results IH]; intros s; simpl; [easy|].
  destruct r as [[]|[|c text]]; try apply IH.
  - destruct (IH (disable_now E tok s)) as (H1 & H2 & H3 & H4).
    cbn [disable_now set_pool found_domains seen_urls pool disable tokens
           stop_when_empty] in *.
    rewrite disable_first_values in H3. easy.
  - destruct (IH (record_matches E raw (Re.finditer re (c :: text)) s))
      as (H1 & H2 & H3 & H4).
    destruct (record_matches_grows raw (Re.finditer re (c :: text)) s) as (G1 & G2 & G3).
    rewrite G2, G3 in *. split; [|easy].
    intros x Hx. now apply H1, G1.
Qed.

Lemma submit_grows (its : list (option str)) (seen : gset str) :
  seen ⊆ (submit its seen).2.
Proof. intros u Hu. apply (submit_spec its seen). now left. Qed.

(** What a step keeps: the sets only grow, and the pool keeps its values
    and its flag. *)
Lemma step_grows (a : Args) (re : Re.pattern) (c : Pc * State E) :
  found_domains E c.2 ⊆ found_domains E (step E a re c).2
  /\ seen_urls E c.2 ⊆ seen_urls E (step E a re c).2
  /\ map value (tokens (pool E (step E a re c).2)) = map value (tokens (pool E c.2))
  /\ stop_when_empty (pool E (step E a re c).2) = stop_when_empty (pool E c.2).
Proof.
  destruct c as [pc s]. cbn [snd]. unfold step.
  destruct pc as [q page rest| |code|]; try easy.
  - destruct (SEARCH_MAX_PAGES <? page)%nat; [easy|].
    destruct (get_some (time_now E (world E s)) (pool E s)) as (r & p' & Hget & Ht & Hf).
    rewrite Hget.
    destruct r as [tok|].
    + destruct (github_search E q page tok (world E (set_pool E p' s))) as [res w'].
      destruct res as [e|data].
      * destruct e; cbn [snd found_domains seen_urls pool say sleep set_world set_pool
                           disable_now disable tokens stop_when_empty];
          rewrite ?disable_first_values, ?Ht, ?Hf; easy.
      * destruct (items data) as [|it its] eqn:Hits.
        { destruct (arg_raw a);
            cbn [snd found_domains seen_urls pool say sleep set_world set_pool];
            rewrite ?Ht, ?Hf; easy. }
        pose proof (submit_grows (it :: its) (seen_urls E s)) as Hsub.
        cbn [seen_urls set_world set_pool] in *.
        destruct (submit (it :: its) (seen_urls E s)) as [urls seen'] eqn:Hs.
        cbn [snd pool found_domains stdout world] in *.
        match goal with |- context [fetch_all E ?u ?t ?ww] =>
          destruct (fetch_all E u t ww) as [results w''] end.
        cbn [snd sleep set_world found_domains seen_urls pool].
        match goal with |- context [collect E ?r ?p ?t ?rs ?s'] =>
          destruct (collect_grows r p t rs s') as (H1 & H2 & H3 & H4) end.
        rewrite H2, H3, H4.
        cbn [found_domains seen_urls pool set_world set_pool] in H1 |- *.
        rewrite Ht, Hf. easy.
    + destruct (arg_stop_when_no_token a);
        cbn [snd found_domains seen_urls pool say sleep set_world set_pool];
        rewrite ?Ht, ?Hf; easy.
  - destruct (write_file E _ _ _) as [ok w']. destruct ok; [destruct (arg_raw a)|]; easy.
Qed.

(** X17: the two sets of a run are append-only. What is in the set of
    found domains, or in the set of seen URLs, at some point of a run is
    still in it at every later point. *)
Theorem sets_only_grow (a : Args) (w : World E) (n k : nat) :
  found_domains E (main E n a w).2 ⊆ found_domains E (main E (n + k) a w).2
  /\ seen_urls E (main E n a w).2 ⊆ seen_urls E (main E (n + k) a w).2.
Proof.
  rewrite !main_steps, steps_add.
  generalize (steps E n a (start E a w).1 (start E a w).2). intros c.
  induction k as [|k IH] in c |- *; simpl; [easy|].
  destruct (step_grows a (start E a w).1 c) as (H1 & H2 & _).
  destruct (IH (step E a (start E a w).1 c)) as (H3 & H4).
  split; etransitivity; eassumption.
Qed.

(** X19: the pool of a run keeps its credentials. At every point of a run
    the values of the pool, in their order, are those the pool was built
    with, and so is the stop flag: [get] and [disable] change the cursor
    and the timestamps only. *)
Theorem pool_values_kept (a : Args) (w : World E) (n : nat) :
  map value (tokens (pool E (main E n a w).2))
  = map value (tokens (pool E (main E 0 a w).2))
  /\ stop_when_empty (pool E (main E n a w).2)
     = stop_when_empty (pool E (main E 0 a w).2).
Proof.
  rewrite !main_steps. simpl steps at 2 4.
  generalize ((start E a w).2). intros c.
  induction n as [|n IH] in c |- *; simpl; [easy|].
  destruct (step_grows a (start E a w).1 c) as (_ & _ & H1 & H2).
  destruct (IH (step E a (start E a w).1 c)) as (H3 & H4).
  split; etransitivity; eassumption.
Qed.




End RunInvariants.



(** A raw run prints the two found domains and nothing else. *)
Example demo_raw_run :
  stdout demo_env (main demo_env 3 demo_raw_args 0).2
  = [Bare (MsgFound (lit "foo.example.com")); Bare (MsgFound (lit "bar.example.com"))].
Proof. vm_compute. reflexivity. Qed.

(** ** [to_raw_url] *)

Lemma replace_from_skip (old new pre s : str) :
  Str.replace_from old new (length pre) (pre ++ s) = Str.replace_from old new 0 s.
Proof.
  induction pre as [|c pre IH]; [reflexivity|]. simpl. exact IH.
Qed.

Lemma startswith_app (old s : str) : Str.startswith old (old ++ s) = true.
Proof. induction old as [|c old IH]; simpl; [reflexivity|]. now rewrite N.eqb_refl. Qed.

(** An occurrence at the start is replaced, and the scan goes on behind
    it. *)
Lemma replace_hit (old new s : str) :
  old <> [] -> Str.replace old new (old ++ s) = new ++ Str.replace old new s.
Proof.
  intros Hne. destruct old as [|c old]; [congruence|].
  unfold Str.replace. simpl app.
  change (Str.replace_from (c :: old) new 0 (c :: old ++ s))
    with (if Str.startswith (c :: old) (c :: old ++ s)
          then new ++ Str.replace_from (c :: old) new (Nat.pred (length (c :: old))) (old ++ s)
          else c :: Str.replace_from (c :: old) new 0 (old ++ s)).
  pose proof (startswith_app (c :: old) s) as Hs. simpl app in Hs.
  rewrite Hs. simpl Nat.pred. now rewrite replace_from_skip.
Qed.

(** A stretch in which no occurrence starts is kept. *)
Lemma replace_miss (old new a s : str) :
  starts_nowhere old a s = true ->
  Str.replace old new (a ++ s) = a ++ Str.replace old new s.
Proof.
  unfold Str.replace. induction a as [|c a IH]; [reflexivity|].
  intros H. cbn [starts_nowhere] in H. apply andb_prop in H as [H1 H2].
  apply negb_true_iff in H1.
  change (Str.replace_from old new 0 ((c :: a) ++ s))
    with (if Str.startswith old ((c :: a) ++ s)
          then new ++ Str.replace_from old new (Nat.pred (length old)) (a ++ s)
          else c :: Str.replace_from old new 0 (a ++ s)).
  rewrite H1, (IH H2). reflexivity.
Qed.

Lemma replace_absent (old new s : str) :
  starts_nowhere old s [] = true -> Str.replace old new s = s.
Proof.
  intros H. rewrite <- (app_nil_r s) at 1. rewrite replace_miss by exact H.
  unfold Str.replace. simpl. apply app_nil_r.
Qed.

(** In the raw host no [/blob/] starts, whatever follows. *)
Lemma raw_host_no_blob (x s : str) :
  starts_nowhere (lit "/blob/") (lit "https://raw.githubusercontent.com" ++ x) s
  = starts_nowhere (lit "/blob/") x s.
Proof. reflexivity. Qed.

(** X20: [to_raw_url] on a browse URL of the usual form. For
    [https://github.com/A/blob/B] in which the host marker does not occur
    again, no [/blob/] starts within [/A], and no [/blob/] occurs in [B],
    the result is [https://raw.githubusercontent.com/A/B]. *)
Theorem to_raw_url_blob (a b : str) :
  starts_nowhere (lit "https://github.com/") (a ++ lit "/blob/" ++ b) [] = true ->
  starts_nowhere (lit "/blob/") (lit "/" ++ a) (lit "/blob/" ++ b) = true ->
  starts_nowhere (lit "/blob/") b [] = true ->
  to_raw_url (lit "https://github.com/" ++ a ++ lit "/blob/" ++ b)
  = lit "https://raw.githubusercontent.com/" ++ a ++ lit "/" ++ b.
Proof.
  intros Hhost Ha Hb. unfold to_raw_url.
  rewrite replace_hit by discriminate.
  rewrite (replace_absent _ _ (a ++ lit "/blob/" ++ b)) by exact Hhost.
  change (lit "https://raw.githubusercontent.com/" ++ a ++ lit "/blob/" ++ b)
    with ((lit "https://raw.githubusercontent.com" ++ lit "/" ++ a) ++ lit "/blob/" ++ b).
  rewrite replace_miss by (rewrite raw_host_no_blob; exact Ha).
  rewrite replace_hit by discriminate.
  rewrite (replace_absent _ _ b) by exact Hb.
  now rewrite <- !app_assoc.
Qed.

Lemma to_raw_url_blob_witness :
  to_raw_url (lit "https://github.com/" ++ lit "o/r" ++ lit "/blob/" ++ lit "main/d/f.txt")
  = lit "https://raw.githubusercontent.com/" ++ lit "o/r" ++ lit "/" ++ lit "main/d/f.txt".
Proof. apply (to_raw_url_blob (lit "o/r") (lit "main/d/f.txt")); reflexivity. Defined.

(** X21: [to_raw_url] leaves a text alone in which neither the host marker
    [https://github.com/] nor [/blob/] occurs. *)
Theorem to_raw_url_identity (s : str) :
  starts_nowhere (lit "https://github.com/") s [] = true ->
  starts_nowhere (lit "/blob/") s [] = true ->
  to_raw_url s = s.
Proof.
  intros Hhost Hblob. unfold to_raw_url.
  rewrite (replace_absent _ _ s) by exact Hhost. now apply replace_absent.
Qed.

Lemma to_raw_url_identity_witness :
  to_raw_url (lit "https://gist.github.com/o/1/raw/f.txt")
  = lit "https://gist.github.com/o/1/raw/f.txt".
Proof. apply (to_raw_url_identity (lit "https://gist.github.com/o/1/raw/f.txt")); reflexivity. Defined.

(** ** The components of [split_domain] *)

Lemma split_labels_no_sep (sep : ascii -> bool) (s : str) :
  Forall (fun l => forallb (fun c => negb (sep c)) l = true) (Str.split sep s).
Proof.
  induction s as [|c s IH]; simpl; [repeat constructor|].
  pose proof (split_not_nil sep s) as Hne.
  destruct (sep c) eqn:Hc.
  - now constructor.
  - destruct (Str.split sep s) as [|l ls]; [congruence|].
    inversion IH as [|? ? Hl Hls]; subst.
    constructor; [|exact Hls]. simpl. now rewrite Hc, Hl.
Qed.

Lemma lower_fixed_join (ls : list str) :
  Str.lower (Str.join (lit ".") ls) = Str.join (lit ".") ls ->
  Forall (fun l => Str.lower l = l) ls.
Proof.
  induction ls as [|l ls IH]; [constructor|].
  destruct ls as [|l' ls].
  - simpl. intros H. now repeat constructor.
  - change (Str.join (lit ".") (l :: l' :: ls))
      with (l ++ lit "." ++ Str.join (lit ".") (l' :: ls)).
    intros H. apply lower_fixed_app in H as [Hl H].
    apply lower_fixed_app in H as [_ H].
    constructor; [exact Hl | now apply IH].
Qed.

Lemma join_lower_fixed (ls : list str) :
  Forall (fun l => Str.lower l = l) ls ->
  Str.lower (Str.join (lit ".") ls) = Str.join (lit ".") ls.
Proof.
  induction 1 as [|l ls Hl Hls IH]; [reflexivity|].
  destruct ls as [|l' ls]; [exact Hl|].
  change (Str.join (lit ".") (l :: l' :: ls))
    with (l ++ lit "." ++ Str.join (lit ".") (l' :: ls)).
  now rewrite !lower_app, Hl, IH.
Qed.

Lemma normalize_host_lower (d : str) :
  Str.lower (normalize_host d) = normalize_host d.
Proof. apply lower_fixed_strip, lower_idem. Qed.

Lemma split_domain_parts (d : str) :
  let '(sub, registrable, tld) := split_domain d in
  dot_free registrable /\ dot_free tld
  /\ Str.lower sub = sub /\ Str.lower registrable = registrable /\ Str.lower tld = tld
  /\ head_free Str.is_dot sub.
Proof.
  rewrite split_domain_host. unfold split_host.
  pose proof (split_labels_no_sep Str.is_dot (normalize_host d)) as Hfree.
  pose proof (normalize_host_lower d) as Hlow.
  pose proof (normalize_host_head_free d) as Hhead.
  pose proof (join_split_dot (normalize_host d)) as Hjoin.
  set (host := normalize_host d) in *.
  destruct (Nat.ltb_spec (length (Str.split Str.is_dot host)) 2) as [Hone|Htwo].
  - assert (Hsingle : Str.split Str.is_dot host = [host]).
    { apply split_no_sep. now apply split_single_no_sep. }
    rewrite Hsingle in Hfree. inversion Hfree; subst.
    unfold dot_free. now repeat split.
  - destruct (last_two_spec _ Htwo) as (front & a & b & Hlabels & Hlast).
    rewrite Hlast. rewrite Hlabels in *.
    apply Forall_app in Hfree as [_ Hfree].
    inversion Hfree as [|? ? Ha Hfree']; subst. inversion Hfree' as [|? ? Hb _]; subst.
    rewrite <- Hjoin in Hlow. apply lower_fixed_join in Hlow.
    apply Forall_app in Hlow as [Hfront Hlow].
    inversion Hlow as [|? ? Hla Hlow']; subst. inversion Hlow' as [|? ? Hlb _]; subst.
    unfold dot_free. repeat split; try assumption.
    + now apply join_lower_fixed.
    + rewrite join_app_two in Hjoin.
      destruct front as [|x front]; [exact I|].
      rewrite <- Hjoin in Hhead.
      destruct (Str.join (lit ".") (x :: front)); [exact I | exact Hhead].
Qed.

(** ** Rate limits and failed fetches in a run *)

Section RateLimits.

Context (E : Env).

(** X23: a rate-limited search. When the search of a page answers with a
    rate limit, the step stays on the same query and page, finds and marks
    nothing, and, in a pool whose values are distinct, leaves the token it
    used out of every call of [get] made before the cooldown of 61 s after
    the answer is over: the retry gets another token or none. *)
Theorem rate_limited_search_retries (a : Args) (re : Re.pattern)
    (q : str) (page : nat) (rest : list str) (s : State E)
    (tok : str) (p' : TokenPool) (m : option str) (w' : World E) :
  (page <= SEARCH_MAX_PAGES)%nat ->
  get (time_now E (world E s)) (pool E s) = Some (Some tok, p') ->
  github_search E q page tok (world E s) = (inl (ErrRatelimit m), w') ->
  NoDup (map value (tokens (pool E s))) ->
  (step E a re (PageLoop q page rest, s)).1 = PageLoop q page rest
  /\ found_domains E (step E a re (PageLoop q page rest, s)).2 = found_domains E s
  /\ seen_urls E (step E a re (PageLoop q page rest, s)).2 = seen_urls E s
  /\ forall t r p'',
     t < time_now E w' + RATE_LIMIT_COOLDOWN ->
     get t (pool E (step E a re (PageLoop q page rest, s)).2) = Some (r, p'') ->
     r <> Some tok.
Proof.
  intros Hpage Hget Hsearch Hnd.
  assert (Hlt : (SEARCH_MAX_PAGES <? page)%nat = false) by now apply Nat.ltb_ge.
  assert (Ht : tokens p' = tokens (pool E s)) by (now apply get_some_value in Hget).
  unfold step. rewrite Hlt, Hget.
  change (world E (set_pool E p' s)) with (world E s). rewrite Hsearch.
  cbn [fst snd found_domains seen_urls pool say sleep set_world set_pool disable_now
         world].
  repeat apply conj; try reflexivity.
  intros t r p'' Hbefore Hnext. unfold disable in Hnext.
  rewrite <- Ht in Hnd. exact (get_after_disable _ _ _ _ _ _ _ _ Hnd Hbefore Hnext).
Qed.





End RateLimits.

Lemma rate_limited_search_retries_witness :
  (step limited_env limited_args (start limited_env limited_args 0).1
     (PageLoop (dquote :: lit "example.com" ++ [dquote]) 1
        (skipn 1 (build_searches (lit "example.com") false)),
      (main limited_env 0 limited_args 0).2)).1
  = PageLoop (dquote :: lit "example.com" ++ [dquote]) 1
      (skipn 1 (build_searches (lit "example.com") false)).
Proof.
  apply (rate_limited_search_retries limited_env limited_args
           (start limited_env limited_args 0).1
           (dquote :: lit "example.com" ++ [dquote]) 1
           (skipn 1 (build_searches (lit "example.com") false))
           (main limited_env 0 limited_args 0).2
           sample_token (mkPool [mkToken sample_token 0] true 0%nat) (Some []) 0).
  - unfold SEARCH_MAX_PAGES. lia.
  - vm_compute. reflexivity.
  - vm_compute. reflexivity.
  - vm_compute. apply NoDup_singleton.
Defined.

(** ** What a run in standard mode reports *)

Lemma lstrip_app (p : ascii -> bool) (x y : str) :
  Str.lstrip p (x ++ y)
  = if forallb p x then Str.lstrip p y else Str.lstrip p x ++ y.
Proof.
  induction x as [|c x IH]; simpl; [reflexivity|].
  destruct (p c); simpl; [exact IH | reflexivity].
Qed.

(** Stripping a text that ends with a non-empty stretch [y] free of [p] at
    both ends: the stretch stays, and of what precedes it the leading [p]
    go. *)
Lemma strip_app_tail (p : ascii -> bool) (x y : str) :
  y <> [] -> edge_free p y ->
  Str.strip p (x ++ y) = (if forallb p x then [] else Str.lstrip p x) ++ y.
Proof.
  intros Hne [Hh Hr]. unfold Str.strip. rewrite lstrip_app.
  assert (Hkeep : forall z, Str.rstrip p (z ++ y) = z ++ y).
  { intros z. apply rstrip_head_free_rev. rewrite rev_app_distr.
    destruct (rev y) as [|c t] eqn:Hy; [|exact Hr].
    apply (f_equal (@length ascii)) in Hy. rewrite length_rev in Hy.
    destruct y; [congruence | discriminate Hy]. }
  destruct (forallb p x).
  - rewrite lstrip_head_free by exact Hh. apply (Hkeep []).
  - apply Hkeep.
Qed.

(** In standard mode, for a host of two labels or more, the keyword is the
    host. *)
Lemma keyword_is_host (d : str) :
  (2 <= length (Str.split Str.is_dot (normalize_host d)))%nat ->
  (build_patterns d false).1 = normalize_host d.
Proof.
  intros H. unfold build_patterns. rewrite split_domain_host. unfold split_host.
  pose proof (normalize_host_head_free d) as Hhead.
  pose proof (join_split_dot (normalize_host d)) as Hjoin.
  set (host := normalize_host d) in *.
  destruct (last_two_spec _ H) as (front & a & b & Hlabels & Hlast).
  rewrite Hlast.
  assert (Hlt : (length (Str.split Str.is_dot host) <? 2)%nat = false)
    by (apply Nat.ltb_ge; exact H).
  rewrite Hlt. rewrite Hlabels, join_app_two in Hjoin.
  destruct (Str.join (lit ".") front) as [|c sub] eqn:Hsub; cbn [fst].
  - apply join_nil_inv in Hsub as [-> | ->]; [exact Hjoin|].
    exfalso. simpl in Hlabels.
    apply split_head_empty in Hlabels as (c & t & Hc & Hdot).
    rewrite Hc in Hhead. simpl in Hhead. congruence.
  - destruct front as [|x front]; [discriminate Hsub|]. exact Hjoin.
Qed.

Lemma two_labels_not_empty (host : str) :
  (2 <= length (Str.split Str.is_dot host))%nat -> host <> [].
Proof. intros H ->. simpl in H. lia. Qed.

Lemma normalize_host_edge_free (d : str) : edge_free Str.is_dot (normalize_host d).
Proof. apply edge_free_strip. Qed.

(** What the normalization makes of a match of the standard pattern. *)
Lemma standard_match_under_host (d g : str) :
  (2 <= length (Str.split Str.is_dot (normalize_host d)))%nat ->
  ReSpec.matches true (Re.expr (standard_pattern d)) g ->
  under_host (normalize_host d) (normalize_match g).
Proof.
  intros Htwo Hg.
  apply (standard_language d g) in Hg as (pre & core & -> & Hcore & Hpre).
  unfold same_up_to_case in Hcore.
  rewrite (keyword_is_host d Htwo), (normalize_host_lower d) in Hcore.
  unfold normalize_match. rewrite lower_app, Hcore.
  rewrite strip_app_tail;
    [| now apply two_labels_not_empty | apply normalize_host_edge_free].
  destruct (forallb Str.is_dot (Str.lower pre)) eqn:Hall; [now left|].
  destruct Hpre as [->|(h & -> & _ & _)]; [discriminate Hall|].
  right. rewrite lower_app in *. change (Str.lower (lit ".")) with (lit ".") in *.
  rewrite lstrip_app. rewrite forallb_app in Hall. simpl in Hall.
  rewrite andb_true_r in Hall. rewrite Hall.
  exists (Str.lstrip Str.is_dot (Str.lower h)). now rewrite <- app_assoc.
Qed.

Section Reports.

Context (E : Env).

Variable Q : str -> Prop.
Variable re : Re.pattern.
Hypothesis match_ok :
  forall g, ReSpec.matches (Re.ignorecase re) (Re.expr re) g -> Q (normalize_match g).

Lemma record_matches_all (raw : bool) (groups : list str) (s : State E) :
  (forall g, In g groups -> Q (normalize_match g)) ->
  (forall d, d ∈ found_domains E s -> Q d) ->
  forall d, d ∈ found_domains E (record_matches E raw groups s) -> Q d.
Proof.
  revert s. induction groups as [|g groups IH]; intros s Hg Hs; simpl; [exact Hs|].
  assert (Hrest : forall g', In g' groups -> Q (normalize_match g'))
    by (intros g' Hin; apply Hg; now right).
  destruct (normalize_match g) as [|c x] eqn:Hn; [now apply IH|].
  destruct (bool_decide (c :: x ∈ found_domains E s)); [now apply IH|].
  apply IH; [exact Hrest|].
  intros d Hd. cbn [found_domains say] in Hd.
  apply elem_of_union in Hd as [Hd|Hd]; [|now apply Hs].
  apply elem_of_singleton in Hd. subst d. rewrite <- Hn. apply Hg. now left.
Qed.

Lemma collect_all (raw : bool) (tok : str) (results : list (Error + str)) (s : State E) :
  (forall d, d ∈ found_domains E s -> Q d) ->
  forall d, d ∈ found_domains E (collect E raw re tok results s) -> Q d.
Proof.
  revert s. induction results as [|r results IH]; intros s Hs; simpl; [exact Hs|].
  destruct r as [[]|[|c text]]; try (now apply IH).
  apply IH. apply record_matches_all; [|exact Hs].
  intros g Hin. apply match_ok. now apply finditer_sound in Hin.
Qed.

Lemma step_all (a : Args) (c : Pc * State E) :
  (forall d, d ∈ found_domains E c.2 -> Q d) ->
  forall d, d ∈ found_domains E (step E a re c).2 -> Q d.
Proof.
  destruct c as [pc s]. cbn [snd]. intros Hs. unfold step.
  repeat match goal with
         | |- context [match ?x with _ => _ end] => destruct x eqn:?
         end;
    cbn [snd]; try exact Hs.
  apply collect_all. exact Hs.
Qed.

Lemma steps_all (n : nat) (a : Args) (c : Pc * State E) :
  (forall d, d ∈ found_domains E c.2 -> Q d) ->
  forall d, d ∈ found_domains E (steps E n a re c).2 -> Q d.
Proof.
  revert c. induction n as [|n IH]; intros c Hc; simpl; [exact Hc|].
  apply IH. now apply step_all.
Qed.

End Reports.

Lemma start_pattern (E : Env) (a : Args) (w : World E) :
  (start E a w).1 = (build_patterns (arg_domain a) (arg_extended a)).2.
Proof.
  unfold start. destruct (build_patterns _ _) as [kw re].
  destruct (arg_version a); [reflexivity|].
  destruct (collect_tokens _ _ _); [reflexivity|].
  now destruct (shuffle E _ w).
Qed.

Lemma start_found_empty (E : Env) (a : Args) (w : World E) (d : str) :
  d ∉ found_domains E (start E a w).2.2.
Proof.
  unfold start. destruct (build_patterns _ _) as [kw re].
  destruct (arg_version a); [apply not_elem_of_empty|].
  destruct (collect_tokens _ _ _); [apply not_elem_of_empty|].
  destruct (shuffle E _ w). apply not_elem_of_empty.
Qed.

(** X25: what a run in standard mode reports. For an ASCII target whose
    host has two labels or more, and when every fetched file is ASCII
    text, every found domain, at every point of the run, is the normalized
    target itself or ends with a dot followed by the normalized target. *)
Theorem standard_mode_reports_subdomains (E : Env) (a : Args) (w : World E)
    (n : nat) (d : str) :
  is_ascii_text (arg_domain a) ->
  (forall url tok w', is_ascii_text (body (gh_request E (RawReq url tok) w').1)) ->
  arg_extended a = false ->
  (2 <= length (Str.split Str.is_dot (normalize_host (arg_domain a))))%nat ->
  d ∈ found_domains E (main E n a w).2 ->
  under_host (normalize_host (arg_domain a)) d.
Proof.
  intros _ _ Hstd Htwo. rewrite main_steps, start_pattern, Hstd.
  apply (steps_all E (under_host (normalize_host (arg_domain a)))).
  - intros g Hg. apply standard_match_under_host; [exact Htwo|].
    destruct (standard_language (arg_domain a) g) as [Hic _].
    unfold standard_pattern in *. rewrite Hic in Hg. exact Hg.
  - intros x Hx. now apply start_found_empty in Hx.
Qed.

Lemma standard_mode_reports_subdomains_witness :
  under_host (normalize_host (lit "example.com")) (lit "foo.example.com").
Proof.
  apply (standard_mode_reports_subdomains demo_env demo_args 0 3 (lit "foo.example.com")).
  - reflexivity.
  - intros url tok w'. reflexivity.
  - reflexivity.
  - vm_compute. lia.
  - apply elem_of_elements. vm_compute. repeat constructor.
Defined.

(** X22: the components of [split_domain], for every input. The
    registrable name and the TLD are single labels, without a dot; the
    three components are in lower case; and the subdomain has no dot at its
    start. *)
Theorem split_domain_components (d : str) :
  let '(sub, registrable, tld) := split_domain d in
  dot_free registrable /\ dot_free tld
  /\ Str.lower sub = sub /\ Str.lower registrable = registrable /\ Str.lower tld = tld
  /\ head_free Str.is_dot sub.
Proof. apply split_domain_parts. Qed.

(** ** What a run in extended mode reports *)

Lemma letter_not_dot (c : ascii) : is_letter c = true -> Str.is_dot (Str.to_lower c) = false.
Proof. by_cases_on_char c. Qed.

Lemma letter_lower (c : ascii) : is_letter c = true -> Str.is_lower (Str.to_lower c) = true.
Proof. by_cases_on_char c. Qed.

Lemma extended_keyword (d : str) :
  (build_patterns d true).1 = (split_domain d).1.2.
Proof. unfold build_patterns. now destruct (split_domain d) as [[sub reg] tld]. Qed.

(** What the normalization makes of a match of the extended pattern. *)
Lemma extended_match_holds_keyword (d g : str) :
  (build_patterns d true).1 <> [] ->
  ReSpec.matches true (Re.expr (extended_pattern d)) g ->
  holds_keyword (build_patterns d true).1 (normalize_match g).
Proof.
  intros Hkw Hg.
  apply (extended_language d g) in Hg
    as (a & b & m & c & e & -> & _ & _ & _ & Hm & _ & [Hlo Hhi] & He).
  pose proof (split_domain_parts d) as Hparts.
  rewrite extended_keyword in *.
  destruct (split_domain d) as [[sub reg] tld]. cbn [fst snd] in *.
  destruct Hparts as (Hfree & _ & _ & Hlow & _).
  unfold same_up_to_case in Hm. rewrite Hlow in Hm.
  assert (Hlast : head_free Str.is_dot (rev (Str.lower e))).
  { destruct (rev (Str.lower e)) as [|x t] eqn:Hr; [exact I|]. simpl.
    assert (Hin : In x (Str.lower e)) by (apply in_rev; rewrite Hr; now left).
    unfold Str.lower in Hin. apply in_map_iff in Hin as (y & <- & Hy).
    rewrite forallb_forall in He. now apply letter_not_dot, He. }
  assert (He' : Str.lower e <> []).
  { intros H. apply (f_equal (@length ascii)) in H.
    unfold Str.lower in H. rewrite length_map in H. simpl in H. lia. }
  unfold normalize_match.
  replace (Str.lower (a ++ lit "." ++ b ++ m ++ c ++ lit "." ++ e))
    with ((Str.lower a ++ lit "." ++ Str.lower b)
            ++ (reg ++ Str.lower c ++ lit "." ++ Str.lower e))
    by (rewrite !lower_app, Hm, <- !app_assoc; reflexivity).
  rewrite strip_app_tail.
  - eexists _, (Str.lower c), (Str.lower e). split; [reflexivity|].
    unfold Str.lower at 1 2. rewrite length_map. split; [lia|].
    unfold Str.lower. rewrite forallb_forall. intros x Hx.
    apply in_map_iff in Hx as (y & <- & Hy).
    rewrite forallb_forall in He. now apply letter_lower, He.
  - destruct reg; [congruence | discriminate].
  - split.
    + destruct reg as [|x reg]; [congruence|]. simpl.
      unfold dot_free in Hfree. simpl in Hfree.
      apply andb_prop in Hfree as [Hx _]. now apply negb_true_iff in Hx.
    + rewrite !rev_app_distr, <- !app_assoc.
      destruct (rev (Str.lower e)) as [|x t] eqn:Hr; [|exact Hlast].
      apply (f_equal (@length ascii)) in Hr. rewrite length_rev in Hr.
      destruct (Str.lower e); [congruence | discriminate Hr].
Qed.

(** X26: what a run in extended mode reports. For an ASCII target whose
    registrable name is not empty, and when every fetched file is ASCII
    text, every found domain, at every point of the run, holds the
    registrable name and ends with a dot and one to five lower-case
    letters. *)
Theorem extended_mode_reports (E : Env) (a : Args) (w : World E) (n : nat) (d : str) :
  is_ascii_text (arg_domain a) ->
  (forall url tok w', is_ascii_text (body (gh_request E (RawReq url tok) w').1)) ->
  arg_extended a = true ->
  (build_patterns (arg_domain a) true).1 <> [] ->
  d ∈ found_domains E (main E n a w).2 ->
  holds_keyword (build_patterns (arg_domain a) true).1 d.
Proof.
  intros _ _ Hext Hkw. rewrite main_steps, start_pattern, Hext.
  apply (steps_all E (holds_keyword (build_patterns (arg_domain a) true).1)).
  - intros g Hg. apply extended_match_holds_keyword; [exact Hkw|].
    destruct (extended_language (arg_domain a) g) as [Hic _].
    unfold extended_pattern in *. rewrite Hic in Hg. exact Hg.
  - intros x Hx. now apply start_found_empty in Hx.
Qed.

Lemma extended_mode_reports_witness :
  holds_keyword (build_patterns (lit "example.com") true).1 (lit "foo.example.com").
Proof.
  apply (extended_mode_reports demo_env demo_ext_args 0 3 (lit "foo.example.com")).
  - reflexivity.
  - intros url tok w'. reflexivity.
  - reflexivity.
  - vm_compute. discriminate.
  - apply elem_of_elements. vm_compute. repeat constructor.
Defined.
